(** * SBWT: the succinct k-mer index of [include/SBWT.hh]

    A shallow embedding of the class template [sbwt::SBWT<subset_rank_t>]:
    the constructor from precomputed bit vectors, [search],
    [streaming_search], [serialize] and [load], followed by the properties
    of the index that are proved (or refuted) about them.

    Conventions.
    - [int64_t] values are integers in [Z]; every [+] and [-] of the source
      is written [[+]] and [[-]], the two's-complement wrap-around made
      explicit.
    - [const char*] is a buffer together with an offset; a read outside the
      buffer, like an access outside a [vector] or a [bit_vector], is the
      outcome [Undefined].
    - [exit(1)] and [throw] are outcomes of their own, so that "returns a
      value" and "terminates the process" are different results. *)

From Stdlib Require Import ZArith NArith Ascii String Bool Lia List.
From Stdlib Require Import Strings.Byte.
Import ListNotations.
Local Open Scope Z_scope.

(** ** 64-bit signed arithmetic *)

Module Int64.

Definition min_signed : Z := - 2 ^ 63.
Definition max_signed : Z := 2 ^ 63 - 1.

Definition in_range (z : Z) : Prop := min_signed <= z <= max_signed.

(** The representative of [z] modulo [2^64] in the signed range. *)
Definition wrap (z : Z) : Z := (z + 2 ^ 63) mod 2 ^ 64 - 2 ^ 63.

Definition add (a b : Z) : Z := wrap (a + b).
Definition sub (a b : Z) : Z := wrap (a - b).

End Int64.

Notation "a [+] b" := (Int64.add a b) (at level 50, left associativity).
Notation "a [-] b" := (Int64.sub a b) (at level 50, left associativity).

(** ** Outcomes of a call *)

Inductive outcome (A : Type) : Type :=
| Ret (a : A)            (* the call returns [a] *)
| Throw (what : string)  (* a [std::runtime_error] propagates to the caller *)
| Exit (code : Z)        (* [exit(code)]: the process terminates *)
| Undefined.             (* an access outside a buffer or a vector *)

Arguments Ret {A} a.
Arguments Throw {A} what.
Arguments Exit {A} code.
Arguments Undefined {A}.

Definition bind {A B : Type} (m : outcome A) (f : A -> outcome B) : outcome B :=
  match m with
  | Ret a => f a
  | Throw w => Throw w
  | Exit c => Exit c
  | Undefined => Undefined
  end.

Notation "x <- m ;; f" := (bind m (fun x => f))
  (at level 61, m at next level, right associativity).

Definition of_option {A : Type} (o : option A) : outcome A :=
  match o with
  | Some a => Ret a
  | None => Undefined
  end.

(** ** Characters, buffers and vectors *)

(** [toupper] in the "C" locale. *)
Definition toupper (c : ascii) : ascii :=
  let n := N_of_ascii c in
  if (97 <=? n)%N && (n <=? 122)%N then ascii_of_N (n - 32) else c.

(** The [if / else if] chain on an upper-cased character that selects the
    entry of the C array: [None] is the final [else] of [search] and the
    value [-1] of [char_idx] in [streaming_search]. *)
Definition char_idx (u : ascii) : option nat :=
  if Ascii.eqb u "A" then Some 0%nat
  else if Ascii.eqb u "C" then Some 1%nat
  else if Ascii.eqb u "G" then Some 2%nat
  else if Ascii.eqb u "T" then Some 3%nat
  else None.

(** [sdsl::bit_vector]. *)
Definition bit_vector : Type := list bool.

Definition size {A : Type} (v : list A) : Z := Z.of_nat (length v).

(** [v[i]] for a [vector] or a [bit_vector] and a signed index. *)
Definition at_ {A : Type} (v : list A) (i : Z) : outcome A :=
  if i <? 0 then Undefined else of_option (nth_error v (Z.to_nat i)).

(** A [const char*]: the characters of the underlying array and the position
    pointed at. *)
Record char_ptr : Type := { buf : list ascii; off : Z }.

Definition ptr_add (p : char_ptr) (d : Z) : char_ptr :=
  {| buf := buf p; off := off p + d |}.

(** [p[i]]. *)
Definition deref (p : char_ptr) (i : Z) : outcome ascii :=
  at_ (buf p) (off p + i).

(** [std::string::c_str]: the characters followed by the terminating NUL. *)
Definition c_str (s : list ascii) : char_ptr :=
  {| buf := s ++ [zero]; off := 0 |}.

(** ** The subset-rank capability

    [subset_rank_t] is a template parameter of the class; the index uses its
    constructor from four bit vectors, [rank], [serialize] and [load], and
    its default constructor. *)

Class SubsetRank (R : Type) : Type := {
  sr_default : R;
  sr_build : bit_vector -> bit_vector -> bit_vector -> bit_vector -> R;
  rank : R -> Z -> ascii -> Z;
  sr_serialize : R -> list byte;
  sr_load : list byte -> option (R * list byte)
}.

(** ** The index *)

Section Index.

Context {R : Type} {SR : SubsetRank R}.

Record SBWT : Type := {
  colex : bool;
  subset_rank : R;
  suffix_group_starts : bit_vector;
  C : list Z;
  n_nodes : Z;
  k : Z;
  n_kmers : Z
}.

(** [SBWT()] *)
Definition SBWT_default : SBWT :=
  {| colex := true; subset_rank := sr_default; suffix_group_starts := [];
     C := []; n_nodes := 0; k := 0; n_kmers := 0 |}.

(** [SBWT(A_bits, C_bits, G_bits, T_bits, streaming_support, k, n_kmers, colex)] *)
Definition SBWT_new (A_bits C_bits G_bits T_bits streaming_support : bit_vector)
    (k n_kmers : Z) (colex : bool) : SBWT :=
  let subset_rank := sr_build A_bits C_bits G_bits T_bits in
  let n_nodes := Int64.wrap (size A_bits) in
  let C0 := 1 in
  let C1 := C0 [+] rank subset_rank n_nodes "A" in
  let C2 := C1 [+] rank subset_rank n_nodes "C" in
  let C3 := C2 [+] rank subset_rank n_nodes "G" in
  {| colex := colex; subset_rank := subset_rank;
     suffix_group_starts := streaming_support;
     C := [C0; C1; C2; C3]; n_nodes := n_nodes; k := k; n_kmers := n_kmers |}.

(** Accessors *)
Definition is_colex (x : SBWT) : bool := colex x.
Definition get_subset_rank_structure (x : SBWT) : R := subset_rank x.
Definition get_streaming_support (x : SBWT) : bit_vector := suffix_group_starts x.
Definition get_C_array (x : SBWT) : list Z := C x.
Definition number_of_subsets (x : SBWT) : Z := n_nodes x.
Definition number_of_kmers (x : SBWT) : Z := n_kmers x.
Definition get_k (x : SBWT) : Z := k x.
Definition has_streaming_query_support (x : SBWT) : bool :=
  size (suffix_group_starts x) >? 0.

(** *** [search(const char* kmer)] *)

(** How the [for] loop of [search] is left: by one of the two [return -1]
    inside it, or by its condition, with the two ends of the range. *)
Inductive walk : Type :=
| Returned (v : Z)
| Completed (node_left node_right : Z).

(** [n] iterations of the loop from the state [(i, node_left, node_right)]. *)
Fixpoint search_loop (x : SBWT) (kmer : char_ptr) (n : nat)
    (i node_left node_right : Z) : outcome walk :=
  match n with
  | O => Ret (Completed node_left node_right)
  | S n' =>
      c <- deref kmer (if colex x then i else k x [-] 1 [-] i) ;;
      match char_idx (toupper c) with
      | None => Ret (Returned (-1))
      | Some ci =>
          Cc <- at_ (C x) (Z.of_nat ci) ;;
          let node_left' := Cc [+] rank (subset_rank x) node_left c in
          let node_right' :=
            Cc [+] rank (subset_rank x) (node_right [+] 1) c [-] 1 in
          if node_left' >? node_right' then Ret (Returned (-1))
          else search_loop x kmer n' (i [+] 1) node_left' node_right'
      end
  end.

(** The whole loop: [i] runs from [0] while [i < k], from the range
    [0 .. n_nodes - 1]. *)
Definition search_walk (x : SBWT) (kmer : char_ptr) : outcome walk :=
  search_loop x kmer (Z.to_nat (k x)) 0 0 (n_nodes x [-] 1).

Definition search (x : SBWT) (kmer : char_ptr) : outcome Z :=
  w <- search_walk x kmer ;;
  match w with
  | Returned v => Ret v
  | Completed node_left node_right =>
      if node_left =? node_right then Ret node_left
      else Exit 1 (* "Bug: node_left != node_right" *)
  end.

(** *** [streaming_search(const char* input, int64_t len)] *)

(** [while(suffix_group_starts[column] == 0) column--;] from a column that is
    not negative. *)
Fixpoint sg_walk_from (sg : bit_vector) (column : nat) : outcome Z :=
  b <- at_ sg (Z.of_nat column) ;;
  if b then Ret (Z.of_nat column)
  else match column with
       | O => Undefined (* the next test reads [sg[-1]] *)
       | S column' => sg_walk_from sg column'
       end.

Definition sg_walk (sg : bit_vector) (column : Z) : outcome Z :=
  if column <? 0 then Undefined else sg_walk_from sg (Z.to_nat column).

(** [ans.back()] and [ans.push_back(v)]. *)
Definition back (ans : list Z) : Z := last ans 0.
Definition push_back (ans : list Z) (v : Z) : list Z := ans ++ [v].

(** The body of the [for] loop, at index [i]. *)
Definition streaming_body (x : SBWT) (input : char_ptr) (len : Z)
    (first_kmer_start : char_ptr) (i : Z) (ans : list Z) : outcome (list Z) :=
  if back ans =? -1 then
    v <- search x (ptr_add first_kmer_start (if colex x then i else - i)) ;;
    Ret (push_back ans v)
  else
    column <- sg_walk (suffix_group_starts x) (back ans) ;;
    c0 <- deref input (if colex x then i [+] k x [-] 1 else len [-] k x [-] i) ;;
    let c := toupper c0 in
    match char_idx c with
    | None => Ret (push_back ans (-1))
    | Some ci =>
        Cc <- at_ (C x) (Z.of_nat ci) ;;
        let node_left := Cc [+] rank (subset_rank x) column c in
        let node_right := Cc [+] rank (subset_rank x) (column [+] 1) c [-] 1 in
        if node_left =? node_right then Ret (push_back ans node_left)
        else Ret (push_back ans (-1))
    end.

(** [n] iterations of the loop from index [i]. *)
Fixpoint streaming_loop (x : SBWT) (input : char_ptr) (len : Z)
    (first_kmer_start : char_ptr) (n : nat) (i : Z) (ans : list Z)
    : outcome (list Z) :=
  match n with
  | O => Ret ans
  | S n' =>
      ans' <- streaming_body x input len first_kmer_start i ans ;;
      streaming_loop x input len first_kmer_start n' (i [+] 1) ans'
  end.

Definition streaming_search (x : SBWT) (input : char_ptr) (len : Z)
    : outcome (list Z) :=
  if size (suffix_group_starts x) =? 0 then
    Throw "Error: streaming search support not built"
  else if len <? k x then Ret []
  else
    let first_kmer_start :=
      if colex x then input else ptr_add input (len - k x) in
    v <- search x first_kmer_start ;;
    (* the loop runs for i = 1 while i < len - k + 1 *)
    ans <- streaming_loop x input len first_kmer_start
             (Z.to_nat (len [-] k x [+] 1 - 1)) 1 (push_back [] v) ;;
    Ret (if colex x then ans else rev ans).

(** [streaming_search(const string& input)] *)
Definition streaming_search_string (x : SBWT) (input : list ascii)
    : outcome (list Z) :=
  streaming_search x (c_str input) (Int64.wrap (size input)).

End Index.


Arguments SBWT R : clear implicits.

(** ** Byte streams

    An [ostream] is the list of bytes written so far, an [istream] the list
    of bytes still to be read; a read that finds too few bytes fails. *)

Definition byte_of_Z (z : Z) : byte := byte_of_ascii (ascii_of_N (Z.to_N z)).
Definition Z_of_byte (b : byte) : Z := Z.of_N (N_of_ascii (ascii_of_byte b)).

(** The [n] low-order bytes of [u], least significant first. *)
Fixpoint le_bytes (n : nat) (u : Z) : list byte :=
  match n with
  | O => []
  | S n' => byte_of_Z (u mod 256) :: le_bytes n' (u / 256)
  end.

Fixpoint le_value (bs : list byte) : Z :=
  match bs with
  | [] => 0
  | b :: bs' => Z_of_byte b + 256 * le_value bs'
  end.

(** [is.read(p, n)] *)
Definition read_bytes (n : nat) (ist : list byte) : option (list byte * list byte) :=
  if (n <=? length ist)%nat then Some (firstn n ist, skipn n ist) else None.

(** [os.write] of the eight bytes of an [int64_t] or a [uint64_t]. *)
Definition write_int64 (v : Z) : list byte := le_bytes 8 (v mod 2 ^ 64).

(** [is.read] of the eight bytes of a [uint64_t] and of an [int64_t]. *)
Definition read_uint64 (ist : list byte) : option (Z * list byte) :=
  match read_bytes 8 ist with
  | Some (bs, ist') => Some (le_value bs, ist')
  | None => None
  end.

Definition read_int64 (ist : list byte) : option (Z * list byte) :=
  match read_uint64 ist with
  | Some (u, ist') => Some (Int64.wrap u, ist')
  | None => None
  end.

(** [serialize_std_vector<int64_t>]: the bytes written and their number. *)
Definition serialize_std_vector (v : list Z) : list byte * Z :=
  let n_bytes := Int64.wrap (8 * size v) in
  (write_int64 n_bytes ++ flat_map write_int64 v, 8 + n_bytes).

Fixpoint read_int64s (n : nat) (ist : list byte) : option (list Z * list byte) :=
  match n with
  | O => Some ([], ist)
  | S n' =>
      match read_int64 ist with
      | Some (z, ist') =>
          match read_int64s n' ist' with
          | Some (zs, ist'') => Some (z :: zs, ist'')
          | None => None
          end
      | None => None
      end
  end.

(** [load_std_vector<int64_t>]; a byte count that is negative or that is not
    a multiple of 8 (the [assert]) is a failure. *)
Definition load_std_vector (ist : list byte) : option (list Z * list byte) :=
  match read_int64 ist with
  | Some (n_bytes, ist') =>
      if (0 <=? n_bytes) && (n_bytes mod 8 =? 0)
      then read_int64s (Z.to_nat (n_bytes / 8)) ist'
      else None
  | None => None
  end.

(** Modelled from the spec: the serialization of [sdsl::bit_vector], a
    library that is not part of the repository sources: "a header with bit
    length followed by packed words", the empty vector being "a zero-length
    bit vector". Bit [i] of the vector is bit [i mod 64] of the 64-bit word
    [i / 64]; words are written least significant byte first, the last one
    padded with zero bits. *)
Definition byte_of_bits (bits : list bool) : byte :=
  byte_of_ascii
    (Ascii (nth 0 bits false) (nth 1 bits false) (nth 2 bits false)
           (nth 3 bits false) (nth 4 bits false) (nth 5 bits false)
           (nth 6 bits false) (nth 7 bits false)).

Definition bits_of_byte (b : byte) : list bool :=
  match ascii_of_byte b with
  | Ascii b0 b1 b2 b3 b4 b5 b6 b7 => [b0; b1; b2; b3; b4; b5; b6; b7]
  end.

Fixpoint pack_bytes (n : nat) (bits : list bool) : list byte :=
  match n with
  | O => []
  | S n' => byte_of_bits (firstn 8 bits) :: pack_bytes n' (skipn 8 bits)
  end.

(** The number of bytes of the words that hold [n] bits. *)
Definition words_bytes (n : nat) : nat := (8 * ((n + 63) / 64))%nat.

Definition bv_serialize (v : bit_vector) : list byte :=
  write_int64 (size v) ++ pack_bytes (words_bytes (length v)) v.

Definition bv_load (ist : list byte) : option (bit_vector * list byte) :=
  match read_uint64 ist with
  | Some (n, ist') =>
      match read_bytes (words_bytes (Z.to_nat n)) ist' with
      | Some (ws, ist'') => Some (firstn (Z.to_nat n) (flat_map bits_of_byte ws), ist'')
      | None => None
      end
  | None => None
  end.

Section Serialization.

Context {R : Type} {SR : SubsetRank R}.

(** [serialize(ostream& os)]: the bytes appended to [os] and the value
    returned. *)
Definition serialize (x : SBWT R) : list byte * Z :=
  let b1 := sr_serialize (subset_rank x) in
  let b2 := bv_serialize (suffix_group_starts x) in
  let '(b3, w3) := serialize_std_vector (C x) in
  let b4 := write_int64 (n_nodes x) in
  let b5 := write_int64 (k x) in
  let flag : Z := if colex x then 1 else 0 in
  let b6 := le_bytes 1 flag in
  (b1 ++ b2 ++ b3 ++ b4 ++ b5 ++ b6,
   0 [+] size b1 [+] size b2 [+] w3 [+] 8 [+] 8 [+] 1).

(** [load(istream& is)] on the object [x]: the fields it assigns, and the
    rest of the stream. [n_kmers] is not among them. *)
Definition load (x : SBWT R) (ist : list byte) : option (SBWT R * list byte) :=
  match sr_load ist with
  | None => None
  | Some (subset_rank', ist1) =>
  match bv_load ist1 with
  | None => None
  | Some (suffix_group_starts', ist2) =>
  match load_std_vector ist2 with
  | None => None
  | Some (C', ist3) =>
  match read_int64 ist3 with
  | None => None
  | Some (n_nodes', ist4) =>
  match read_int64 ist4 with
  | None => None
  | Some (k', ist5) =>
  match read_bytes 1 ist5 with
  | None => None
  | Some (colex_flag, ist6) =>
      Some ({| colex := negb (le_value colex_flag =? 0);
               subset_rank := subset_rank';
               suffix_group_starts := suffix_group_starts';
               C := C'; n_nodes := n_nodes'; k := k';
               n_kmers := n_kmers x |}, ist6)
  end end end end end end.

End Serialization.

(** The index [x] with the value [n] in its field [n_kmers]. *)
Definition with_n_kmers {R : Type} (x : SBWT R) (n : Z) : SBWT R :=
  {| colex := colex x; subset_rank := subset_rank x;
     suffix_group_starts := suffix_group_starts x; C := C x;
     n_nodes := n_nodes x; k := k x; n_kmers := n |}.

(** ** A subset-rank structure

    Modelled from the spec: the implementations of [subset_rank_t] are not in
    [SBWT.hh]. The four bit vectors are stored as they are given: "Bit
    [X_bits[i]] = 1 iff character X is in column i's subset", and
    [rank(i, c)] is the "count of columns j in [0, i) whose subset contains
    character c". The subsets are subsets of A, C, G, T, so that the count
    of any other character, a lower-case letter included, is 0; the spec
    leaves that case to the caller ("the caller guarantees validity"). The
    payload written by [serialize] is the four bit vectors in order. *)

Record SubsetSplitRank : Type := {
  A_bits : bit_vector;
  C_bits : bit_vector;
  G_bits : bit_vector;
  T_bits : bit_vector
}.

Definition in_subset (r : SubsetSplitRank) (j : nat) (c : ascii) : bool :=
  if Ascii.eqb c "A" then nth j (A_bits r) false
  else if Ascii.eqb c "C" then nth j (C_bits r) false
  else if Ascii.eqb c "G" then nth j (G_bits r) false
  else if Ascii.eqb c "T" then nth j (T_bits r) false
  else false.

Definition split_rank (r : SubsetSplitRank) (i : Z) (c : ascii) : Z :=
  size (filter (fun j => in_subset r j c) (seq 0 (Z.to_nat i))).

Definition split_load (ist : list byte) : option (SubsetSplitRank * list byte) :=
  match bv_load ist with
  | None => None
  | Some (a, ist1) =>
  match bv_load ist1 with
  | None => None
  | Some (c, ist2) =>
  match bv_load ist2 with
  | None => None
  | Some (g, ist3) =>
  match bv_load ist3 with
  | None => None
  | Some (t, ist4) =>
      Some ({| A_bits := a; C_bits := c; G_bits := g; T_bits := t |}, ist4)
  end end end end.

#[export] Instance SplitRank : SubsetRank SubsetSplitRank := {
  sr_default := {| A_bits := []; C_bits := []; G_bits := []; T_bits := [] |};
  sr_build a c g t := {| A_bits := a; C_bits := c; G_bits := g; T_bits := t |};
  rank := split_rank;
  sr_serialize r :=
    bv_serialize (A_bits r) ++ bv_serialize (C_bits r) ++
    bv_serialize (G_bits r) ++ bv_serialize (T_bits r);
  sr_load := split_load
}.

(** ** The index of the set {AAA, AAC, ACG, CGT, GTA, TAA}, k = 3

    In colex order the columns are $$$, AAA, TAA, GTA, AAC, ACG, CGT; the
    columns AAA and TAA share the suffix AA, and the outgoing labels of the
    group are on its first column. *)

Definition bits (s : string) : bit_vector :=
  map (fun c => Ascii.eqb c "1") (list_ascii_of_string s).

Definition example_colex : SBWT SubsetSplitRank :=
  SBWT_new (bits "0101001") (bits "0100000") (bits "0000100") (bits "0000010")
           (bits "1101111") 3 6 true.

(** The same set in a lex index: the columns are $$$ and the k-mers in
    lexicographic order, AAA, AAC, ACG, CGT, GTA, TAA; the k-mers are read
    from their last character, and AAA and AAC share the prefix AA. *)
Definition example_lex : SBWT SubsetSplitRank :=
  SBWT_new (bits "0101100") (bits "0000010") (bits "0000001") (bits "0100000")
           (bits "1101111") 3 6 false.

Definition str (s : string) : char_ptr := c_str (list_ascii_of_string s).

(** ** The loop of [search] as a fold

    The body of the loop of [search], as a step on the range: the character
    is upper-cased for the choice of the entry of the C array, and passed to
    [rank] as it was read. The loop is the fold of this step over the first
    [k] characters, in the order in which they are read. *)

(** The [n] characters that start at [p]. *)
Definition chars_at (p : char_ptr) (n : nat) : list ascii :=
  firstn n (skipn (Z.to_nat (off p)) (buf p)).

Section Narrowing.

Context {R : Type} {SR : SubsetRank R}.

(** One step; [None] stands for the answer -1. *)
Definition narrow (x : SBWT R) (range : Z * Z) (c : ascii) : option (Z * Z) :=
  match char_idx (toupper c) with
  | None => None
  | Some ci =>
      let l := nth ci (C x) 0 [+] rank (subset_rank x) (fst range) c in
      let r := nth ci (C x) 0 [+] rank (subset_rank x) (snd range [+] 1) c [-] 1 in
      if l >? r then None else Some (l, r)
  end.

Fixpoint narrow_all (x : SBWT R) (range : Z * Z) (cs : list ascii)
    : option (Z * Z) :=
  match cs with
  | [] => Some range
  | c :: cs' =>
      match narrow x range c with
      | None => None
      | Some range' => narrow_all x range' cs'
      end
  end.

(** The characters of the k-mer in the order in which they are read. *)
Definition reading_order (x : SBWT R) (kmer : list ascii) : list ascii :=
  if colex x then kmer else rev kmer.

Definition search_by_narrowing (x : SBWT R) (kmer : list ascii) : option (Z * Z) :=
  narrow_all x (0, n_nodes x [-] 1) (reading_order x kmer).

End Narrowing.

(** ** The search algorithm as the specification words it

    "Maintain an inclusive column range [L, R], initialized to [0, N-1]. For
    step i = 0 .. k-1: 1. Let c = upper(kmer[i]) if colex, else
    upper(kmer[k-1-i]). 2. Map c to char_idx; if c is not one of A/C/G/T,
    return -1. 3. L <- C[char_idx] + rank(L, c). 4. R <- C[char_idx] +
    rank(R + 1, c) - 1. 5. If L > R, return -1." The character ranked is the
    upper-cased one. The arithmetic is that of signed 64-bit integers. *)

Section SpecAlgorithm.

Context {R : Type} {SR : SubsetRank R}.

(** Steps 1 to 5 for one character; [None] stands for the answer -1. *)
Definition spec_step (x : SBWT R) (range : Z * Z) (ch : ascii) : option (Z * Z) :=
  let c := toupper ch in
  match char_idx c with
  | None => None
  | Some ci =>
      let l := nth ci (C x) 0 [+] rank (subset_rank x) (fst range) c in
      let r := nth ci (C x) 0 [+] rank (subset_rank x) (snd range [+] 1) c [-] 1 in
      if l >? r then None else Some (l, r)
  end.

Fixpoint spec_steps (x : SBWT R) (range : Z * Z) (cs : list ascii)
    : option (Z * Z) :=
  match cs with
  | [] => Some range
  | ch :: cs' =>
      match spec_step x range ch with
      | None => None
      | Some range' => spec_steps x range' cs'
      end
  end.

(** The range after the [k] steps on a k-mer, or [None] for -1. *)
Definition spec_search (x : SBWT R) (kmer : list ascii) : option (Z * Z) :=
  spec_steps x (0, n_nodes x [-] 1) (reading_order x kmer).

End SpecAlgorithm.

(** ** Windows of [streaming_search]

    The entry of the result for the window that starts at position [p] of
    the input, stated by position rather than by loop index. *)

Section Windows.

Context {R : Type} {SR : SubsetRank R}.

(** A value that an entry may hold: -1, or a column that has a suffix-group
    bit. *)
Definition in_columns (x : SBWT R) (v : Z) : bool :=
  (v =? -1) || ((0 <=? v) && (v <? size (suffix_group_starts x))).

(** The value pushed by the one-step branch, from the first column of the
    suffix group, the upper-cased character and its entry of the C array. *)
Definition one_step (x : SBWT R) (Cc column : Z) (c : ascii) : Z :=
  let node_left := Cc [+] rank (subset_rank x) column c in
  let node_right := Cc [+] rank (subset_rank x) (column [+] 1) c [-] 1 in
  if node_left =? node_right then node_left else -1.

(** The window that is processed first, and the one processed just before
    the window at [p]: the loop goes left to right in a colex index and right
    to left in a lex one. *)
Definition first_pos (x : SBWT R) (len : Z) : Z :=
  if colex x then 0 else len - k x.

Definition processed_before (x : SBWT R) (p : Z) : Z :=
  if colex x then p - 1 else p + 1.

(** The character by which the window at [p] extends the one processed
    before it: its last character in a colex index, its first in a lex one. *)
Definition forward_pos (x : SBWT R) (p : Z) : Z :=
  if colex x then p + k x - 1 else p.

(** The entry for the window at [p], given the entry [prev] of the window
    processed before it ([-1] also for the first window, which has none). *)
Definition window_answer (x : SBWT R) (input : char_ptr) (p prev : Z)
    : outcome Z :=
  if prev =? -1 then search x (ptr_add input p)
  else
    column <- sg_walk (suffix_group_starts x) prev ;;
    c0 <- deref input (forward_pos x p) ;;
    match char_idx (toupper c0) with
    | None => Ret (-1)
    | Some ci =>
        Cc <- at_ (C x) (Z.of_nat ci) ;;
        Ret (one_step x Cc column (toupper c0))
    end.

End Windows.

(** ** [search(const string& kmer)]

    [None] stands for the failure of the assertion [kmer.size() == k], on
    which the process aborts; the comparison is that of [size_t], to which
    [k] is converted. *)

Definition search_string {R : Type} {SR : SubsetRank R}
    (x : SBWT R) (kmer : list ascii) : option (outcome Z) :=
  if size kmer =? k x mod 2 ^ 64 then Some (search x (c_str kmer)) else None.

(** The number of 1-bits of a bit vector. *)
Definition total_rank (v : bit_vector) : Z := size (filter (fun b => b) v).

(** The [i]-th window of length [k] of [s], counted from the left. *)
Definition window (k : Z) (s : list ascii) (i : nat) : list ascii :=
  firstn (Z.to_nat k) (skipn i s).

(** * Properties *)

(** ** Arithmetic without overflow *)

Lemma int64_wrap_small (z : Z) : Int64.in_range z -> Int64.wrap z = z.
Proof.
  unfold Int64.in_range, Int64.min_signed, Int64.max_signed, Int64.wrap.
  intros Hz. rewrite Z.mod_small by lia. lia.
Qed.

Lemma int64_wrap_in_range (z : Z) : Int64.in_range (Int64.wrap z).
Proof.
  unfold Int64.in_range, Int64.min_signed, Int64.max_signed, Int64.wrap.
  pose proof (Z.mod_pos_bound (z + 2 ^ 63) (2 ^ 64) ltac:(lia)). lia.
Qed.

Lemma int64_add_small (a b : Z) : Int64.in_range (a + b) -> a [+] b = a + b.
Proof. apply int64_wrap_small. Qed.

Lemma int64_sub_small (a b : Z) : Int64.in_range (a - b) -> a [-] b = a - b.
Proof. apply int64_wrap_small. Qed.

(** Rewrites the wrapping operations of the goal into the exact ones, the
    range conditions being left to [lia]. *)
Ltac int64_range :=
  unfold Int64.in_range, Int64.min_signed, Int64.max_signed in *; lia.

Ltac int64_exact :=
  repeat match goal with
    | |- context [?a [+] ?b] => rewrite (int64_add_small a b) by int64_range
    | |- context [?a [-] ?b] => rewrite (int64_sub_small a b) by int64_range
    | |- context [Int64.wrap ?a] => rewrite (int64_wrap_small a) by int64_range
    end.

(** ** Outcomes *)

Lemma bind_Ret_inv {A B : Type} (m : outcome A) (f : A -> outcome B) (b : B) :
  (x <- m ;; f x) = Ret b -> exists a, m = Ret a /\ f a = Ret b.
Proof. destruct m; simpl; intros H; try discriminate. eauto. Qed.

Lemma bind_Throw_inv {A B : Type} (m : outcome A) (f : A -> outcome B) (w : string) :
  (x <- m ;; f x) = Throw w -> m = Throw w \/ exists a, m = Ret a /\ f a = Throw w.
Proof.
  destruct m; simpl; intros H; try discriminate; [right; eauto | left; congruence].
Qed.

Lemma at_not_Throw {A : Type} (v : list A) (i : Z) (w : string) : at_ v i <> Throw w.
Proof.
  unfold at_. destruct (i <? 0); [discriminate|].
  destruct (nth_error v (Z.to_nat i)); discriminate.
Qed.

Lemma at_Ret {A : Type} (v : list A) (i : Z) (a : A) :
  0 <= i -> nth_error v (Z.to_nat i) = Some a -> at_ v i = Ret a.
Proof.
  intros Hi Hn. unfold at_. destruct (Z.ltb_spec i 0); [lia|]. now rewrite Hn.
Qed.

Section IndexProperties.

Context {R : Type} {SR : SubsetRank R}.
Implicit Types (x : SBWT R) (kmer input : char_ptr).

(** *** The loop of [search] *)

(** The two [return] statements inside the loop return [-1]. *)
Lemma search_loop_Returned x kmer n i l r v :
  search_loop x kmer n i l r = Ret (Returned v) -> v = -1.
Proof.
  revert i l r. induction n as [|n IH]; intros i l r; simpl.
  - discriminate.
  - intros H. apply bind_Ret_inv in H. destruct H as (c & _ & H).
    destruct (char_idx (toupper c)) as [ci|]; [|congruence].
    apply bind_Ret_inv in H. destruct H as (Cc & _ & H).
    destruct (_ >? _); [congruence|]. eauto.
Qed.

Lemma search_loop_not_Throw x kmer n i l r w :
  search_loop x kmer n i l r <> Throw w.
Proof.
  revert i l r. induction n as [|n IH]; intros i l r; simpl; [discriminate|].
  intros H. apply bind_Throw_inv in H.
  destruct H as [H|(c & _ & H)]; [now apply at_not_Throw in H|].
  destruct (char_idx (toupper c)) as [ci|]; [|discriminate].
  apply bind_Throw_inv in H.
  destruct H as [H|(Cc & _ & H)]; [now apply at_not_Throw in H|].
  destruct (_ >? _); [discriminate|]. now apply IH in H.
Qed.

Lemma search_not_Throw x kmer w : search x kmer <> Throw w.
Proof.
  unfold search. intros H. apply bind_Throw_inv in H.
  destruct H as [H|(wk & _ & H)]; [now apply search_loop_not_Throw in H|].
  destruct wk; [discriminate|]. destruct (_ =? _); discriminate.
Qed.

(** The position read at iteration [i] lies among the first [k]. *)
Lemma search_position x i :
  Int64.in_range (k x) -> 0 <= i < k x ->
  0 <= (if colex x then i else k x [-] 1 [-] i) < k x
  /\ (if colex x then i else k x [-] 1 [-] i)
     = (if colex x then i else k x - 1 - i).
Proof.
  intros Hk Hi. destruct (colex x); [lia|].
  int64_exact. lia.
Qed.

(** The loop reads its pointer only at the positions [0 .. k-1]. *)
Lemma search_loop_ext x S1 S2 n i l r :
  Int64.in_range (k x) -> 0 <= i -> i + Z.of_nat n <= Z.max 0 (k x) ->
  (forall j, 0 <= j < k x -> deref S1 j = deref S2 j) ->
  search_loop x S1 n i l r = search_loop x S2 n i l r.
Proof.
  intros Hk Hi Hn Heq. revert i l r Hi Hn.
  induction n as [|n IH]; intros i l r Hi Hn; simpl; [reflexivity|].
  destruct (search_position x i Hk ltac:(lia)) as [Hp _].
  rewrite (Heq _ Hp).
  destruct (deref S2 _) as [c| | |]; simpl; try reflexivity.
  destruct (char_idx (toupper c)) as [ci|]; [|reflexivity].
  destruct (at_ (C x) (Z.of_nat ci)) as [Cc| | |]; simpl; try reflexivity.
  destruct (_ >? _); [reflexivity|].
  assert (Hi1 : i [+] 1 = i + 1) by (int64_exact; lia).
  rewrite Hi1. apply IH; lia.
Qed.

(** C10. The result of [search] on a character pointer depends on the
    first [k] characters only: on two pointers whose characters at the
    positions [0 .. k-1] agree, [search] has the same outcome, whether the
    index is colex (positions read upwards) or lex (read from [k-1] down
    to [0]). [k] is a value of [int64_t]. *)
Theorem search_depends_on_first_k x S1 S2 :
  Int64.in_range (k x) ->
  (forall i, 0 <= i < k x -> deref S1 i = deref S2 i) ->
  search x S1 = search x S2.
Proof.
  intros Hk Heq. unfold search, search_walk.
  rewrite (search_loop_ext x S1 S2) by (auto; lia). reflexivity.
Qed.

(** C8. When the loop of [search] is left after its [k] steps with the
    range [l .. r], a value is returned only if [l = r], and it is that
    value; with [l = r] that value is returned; with [l <> r] the call does
    not return and the process exits with status 1. Hence a non-negative
    value [j] returned by [search] is the common end [l = r = j] of the range
    after [k] steps. *)
Theorem search_returns_collapsed_range x kmer :
  (forall l r v, search_walk x kmer = Ret (Completed l r) ->
     search x kmer = Ret v -> l = r /\ v = l)
  /\ (forall l, search_walk x kmer = Ret (Completed l l) ->
       search x kmer = Ret l)
  /\ (forall l r, search_walk x kmer = Ret (Completed l r) ->
       l <> r -> search x kmer = Exit 1)
  /\ (forall j, search x kmer = Ret j -> 0 <= j ->
       search_walk x kmer = Ret (Completed j j)).
Proof.
  unfold search. repeat split.
  - rewrite H in H0. simpl in H0.
    destruct (Z.eqb_spec l r); [assumption|discriminate].
  - rewrite H in H0. simpl in H0.
    destruct (Z.eqb_spec l r); congruence.
  - intros l Hw. rewrite Hw. simpl. now rewrite Z.eqb_refl.
  - intros l r Hw Hne. rewrite Hw. simpl.
    destruct (Z.eqb_spec l r); congruence.
  - intros j Hs Hj. apply bind_Ret_inv in Hs. destruct Hs as ([v|l r] & Hw & Hs).
    + apply search_loop_Returned in Hw. inversion Hs. lia.
    + destruct (Z.eqb_spec l r); [|discriminate]. congruence.
Qed.

(** *** [search] narrows a range *)

Lemma char_idx_lt u ci : char_idx u = Some ci -> (ci < 4)%nat.
Proof.
  unfold char_idx. repeat destruct (Ascii.eqb u _); intros H; inversion H; lia.
Qed.

Lemma at_C x ci :
  length (C x) = 4%nat -> (ci < 4)%nat ->
  at_ (C x) (Z.of_nat ci) = Ret (nth ci (C x) 0).
Proof.
  intros HC Hci. apply at_Ret; [lia|]. rewrite Nat2Z.id.
  apply nth_error_nth'. lia.
Qed.

Lemma skipn_cons_nth {A : Type} (d : A) (l : list A) (i : nat) :
  (i < length l)%nat -> skipn i l = nth i l d :: skipn (S i) l.
Proof.
  revert i. induction l as [|a l IH]; intros [|i] Hi; simpl in *; try lia.
  - reflexivity.
  - apply IH. lia.
Qed.

Lemma firstn_snoc_nth {A : Type} (d : A) (l : list A) (n : nat) :
  (n < length l)%nat -> firstn (S n) l = firstn n l ++ [nth n l d].
Proof.
  revert n. induction l as [|a l IH]; intros [|n] Hn; simpl in *; try lia.
  - reflexivity.
  - f_equal. apply IH. lia.
Qed.

(** [n] iterations of the loop from index [i], where [i + n = k], narrow
    the range by the characters that remain to be read. *)
Lemma search_loop_narrow x kmer w n i l r :
  length (C x) = 4%nat -> Int64.in_range (k x) ->
  length w = Z.to_nat (k x) ->
  (forall j, (j < length w)%nat -> deref kmer (Z.of_nat j) = Ret (nth j w zero)) ->
  (i + n = length w)%nat ->
  search_loop x kmer n (Z.of_nat i) l r =
  match narrow_all x (l, r) (if colex x then skipn i w else rev (firstn n w)) with
  | None => Ret (Returned (-1))
  | Some (l', r') => Ret (Completed l' r')
  end.
Proof.
  intros HC Hk Hw Hread. revert i l r.
  induction n as [|n IH]; intros i l r Hin.
  - simpl. rewrite skipn_all2 by lia. now destruct (colex x).
  - cbn [search_loop].
    assert (Hpos : (if colex x then Z.of_nat i else k x [-] 1 [-] Z.of_nat i)
                   = Z.of_nat (if colex x then i else n)).
    { destruct (colex x); [reflexivity|]. int64_exact. lia. }
    rewrite Hpos, Hread by (destruct (colex x); lia). cbn [bind].
    assert (Hcs : (if colex x then skipn i w else rev (firstn (S n) w))
                  = nth (if colex x then i else n) w zero
                    :: (if colex x then skipn (S i) w else rev (firstn n w))).
    { destruct (colex x).
      - apply skipn_cons_nth. lia.
      - rewrite (firstn_snoc_nth zero) by lia. now rewrite rev_app_distr. }
    rewrite Hcs. cbn [narrow_all]. unfold narrow. cbn [fst snd].
    destruct (char_idx (toupper _)) as [ci|] eqn:Hci; [|reflexivity].
    rewrite at_C by eauto using char_idx_lt. cbn [bind].
    destruct (_ >? _); [reflexivity|].
    replace (Z.of_nat i [+] 1) with (Z.of_nat (S i)) by (int64_exact; lia).
    apply IH. lia.
Qed.

Lemma deref_chars_at kmer n j :
  0 <= off kmer -> off kmer + Z.of_nat n <= size (buf kmer) -> (j < n)%nat ->
  deref kmer (Z.of_nat j) = Ret (nth j (chars_at kmer n) zero)
  /\ length (chars_at kmer n) = n.
Proof.
  unfold deref, chars_at, size. intros Hoff Hlen Hj.
  assert (Hl : length (firstn n (skipn (Z.to_nat (off kmer)) (buf kmer))) = n).
  { rewrite length_firstn, length_skipn. lia. }
  split; [|exact Hl].
  apply at_Ret; [lia|].
  rewrite nth_firstn. destruct (Nat.ltb_spec j n) as [_|]; [|lia].
  rewrite nth_skipn.
  replace (Z.to_nat (off kmer + Z.of_nat j)) with (Z.to_nat (off kmer) + j)%nat by lia.
  apply nth_error_nth'. lia.
Qed.

(** *** [streaming_search] and its exception *)

Lemma sg_walk_not_Throw sg column w : sg_walk sg column <> Throw w.
Proof.
  unfold sg_walk. destruct (column <? 0); [discriminate|].
  induction (Z.to_nat column) as [|c IH]; simpl; intros H;
    apply bind_Throw_inv in H;
    (destruct H as [H|([|] & _ & H)]; [now apply at_not_Throw in H|discriminate|]).
  - discriminate.
  - auto.
Qed.

Lemma streaming_body_not_Throw x input len fks i ans w :
  streaming_body x input len fks i ans <> Throw w.
Proof.
  unfold streaming_body. destruct (back ans =? -1); intros H.
  - apply bind_Throw_inv in H.
    destruct H as [H|(v & _ & H)]; [now apply search_not_Throw in H|discriminate].
  - apply bind_Throw_inv in H.
    destruct H as [H|(col & _ & H)]; [now apply sg_walk_not_Throw in H|].
    apply bind_Throw_inv in H.
    destruct H as [H|(c0 & _ & H)]; [now apply at_not_Throw in H|].
    destruct (char_idx (toupper c0)); [|discriminate].
    apply bind_Throw_inv in H.
    destruct H as [H|(Cc & _ & H)]; [now apply at_not_Throw in H|].
    destruct (_ =? _); discriminate.
Qed.

Lemma streaming_loop_not_Throw x input len fks n i ans w :
  streaming_loop x input len fks n i ans <> Throw w.
Proof.
  revert i ans. induction n as [|n IH]; intros i ans; simpl; [discriminate|].
  intros H. apply bind_Throw_inv in H.
  destruct H as [H|(ans' & _ & H)]; [now apply streaming_body_not_Throw in H|].
  now apply IH in H.
Qed.

Lemma has_streaming_query_support_false x :
  has_streaming_query_support x = false
  <-> (size (suffix_group_starts x) =? 0) = true.
Proof.
  unfold has_streaming_query_support, size.
  destruct (Z.gtb_spec (Z.of_nat (length (suffix_group_starts x))) 0);
    destruct (Z.eqb_spec (Z.of_nat (length (suffix_group_starts x))) 0);
    split; intros; try reflexivity; try discriminate; lia.
Qed.

(** C7. [streaming_search] throws (a [std::runtime_error], which the
    caller can catch) exactly when the index has no suffix-group marks:
    without them it throws on every input, with them it throws on none. *)
Theorem streaming_unsupported_iff x input len :
  ((exists w, streaming_search x input len = Throw w)
     <-> has_streaming_query_support x = false)
  /\ (streaming_search x input len
       = Throw "Error: streaming search support not built"
     <-> has_streaming_query_support x = false).
Proof.
  rewrite has_streaming_query_support_false. unfold streaming_search.
  destruct (size (suffix_group_starts x) =? 0).
  - repeat split; eauto.
  - assert (Hno : forall w,
      (if len <? k x then Ret []
       else v <- search x (if colex x then input else ptr_add input (len - k x)) ;;
            ans <- streaming_loop x input len
                     (if colex x then input else ptr_add input (len - k x))
                     (Z.to_nat (len [-] k x [+] 1 - 1)) 1 (push_back [] v) ;;
            Ret (if colex x then ans else rev ans)) <> Throw w).
    { intros w H. destruct (len <? k x); [discriminate|].
      apply bind_Throw_inv in H.
      destruct H as [H|(v & _ & H)]; [now apply search_not_Throw in H|].
      apply bind_Throw_inv in H.
      destruct H as [H|(a & _ & H)]; [now apply streaming_loop_not_Throw in H|].
      discriminate. }
    repeat split; try discriminate.
    + intros [w H]. now apply Hno in H.
    + intros H. now apply Hno in H.
Qed.

(** *** The constructor *)

(** C9. The constructor from four bit vectors fills the C array with
    [C[0] = 1], [C[1] = C[0] + rank(N, 'A')], [C[2] = C[1] + rank(N, 'C')]
    and [C[3] = C[2] + rank(N, 'G')], where [rank] is that of the structure
    built from the four vectors, [N] is the size of [A_bits] and [+] is the
    addition of [int64_t]. *)
Theorem constructor_C_array A_bits C_bits G_bits T_bits streaming_support
    k n_kmers colex :
  let x :=
    SBWT_new A_bits C_bits G_bits T_bits streaming_support k n_kmers colex in
  let c := fun i => nth i (get_C_array x) 0 in
  let rankN := rank (sr_build A_bits C_bits G_bits T_bits) (Int64.wrap (size A_bits)) in
  length (get_C_array x) = 4%nat
  /\ c 0%nat = 1
  /\ c 1%nat = c 0%nat [+] rankN "A"%char
  /\ c 2%nat = c 1%nat [+] rankN "C"%char
  /\ c 3%nat = c 2%nat [+] rankN "G"%char
  /\ get_subset_rank_structure x = sr_build A_bits C_bits G_bits T_bits
  /\ number_of_subsets x = Int64.wrap (size A_bits).
Proof. cbv zeta. repeat split. Qed.

(** *** The windows of [streaming_search] *)

Lemma ptr_add_0 (p : char_ptr) : ptr_add p 0 = p.
Proof. destruct p as [b o]. unfold ptr_add. simpl. f_equal. lia. Qed.

Lemma ptr_add_add (p : char_ptr) (a b : Z) :
  ptr_add (ptr_add p a) b = ptr_add p (a + b).
Proof. unfold ptr_add. simpl. f_equal. lia. Qed.

Lemma last_nth {A : Type} (d : A) (l : list A) :
  last l d = nth (length l - 1) l d.
Proof.
  induction l as [|a [|b l] IH]; try reflexivity.
  change (last (a :: b :: l) d) with (last (b :: l) d). rewrite IH.
  simpl. now rewrite Nat.sub_0_r.
Qed.

Lemma in_columns_cases x v :
  in_columns x v = true -> v = -1 \/ 0 <= v < size (suffix_group_starts x).
Proof. unfold in_columns. lia. Qed.

(** With the first column marked, the walk to the start of the group ends
    inside the bit vector. *)
Lemma sg_walk_from_total (sg : bit_vector) (n : nat) :
  nth_error sg 0 = Some true -> (n < length sg)%nat ->
  exists column', sg_walk_from sg n = Ret column' /\ 0 <= column' <= Z.of_nat n.
Proof.
  intros H0. induction n as [|c IH]; intros Hn; cbn [sg_walk_from].
  - rewrite (at_Ret sg (Z.of_nat 0) true) by (auto; lia). cbn [bind].
    exists 0. split; [reflexivity|lia].
  - destruct (nth_error sg (S c)) as [b|] eqn:Hb;
      [|apply nth_error_None in Hb; lia].
    rewrite (at_Ret sg (Z.of_nat (S c)) b) by (try lia; now rewrite Nat2Z.id).
    cbn [bind]. destruct b.
    + eexists. split; [reflexivity|lia].
    + destruct IH as (c' & -> & Hc'); [lia|]. exists c'. split; [reflexivity|lia].
Qed.

Lemma sg_walk_total (sg : bit_vector) (column : Z) :
  nth_error sg 0 = Some true -> 0 <= column < size sg ->
  exists column', sg_walk sg column = Ret column' /\ 0 <= column' <= column.
Proof.
  intros H0 Hc. unfold sg_walk. destruct (Z.ltb_spec column 0); [lia|].
  destruct (sg_walk_from_total sg (Z.to_nat column) H0) as (c' & Hw & Hc');
    [unfold size in Hc; lia|].
  exists c'. split; [exact Hw|lia].
Qed.

Section StreamingWindows.

Variables (x : SBWT R) (input : char_ptr) (len : Z).

Hypothesis k_nonneg : 0 <= k x.
Hypothesis len_k : k x <= len.
Hypothesis len_max : len < Int64.max_signed.

(** The window handled at the loop index [i]. *)
Let pos (i : Z) : Z := if colex x then i else len - k x - i.

Let first_kmer_start : char_ptr :=
  if colex x then input else ptr_add input (len - k x).

(** The body of the loop at index [i] computes the entry of the window at
    [pos i] from the last entry, and pushes it. *)
Lemma streaming_body_window i ans :
  1 <= i <= len - k x ->
  streaming_body x input len first_kmer_start i ans
  = (v <- window_answer x input (pos i) (back ans) ;; Ret (push_back ans v)).
Proof.
  intros Hi. unfold streaming_body, window_answer, first_kmer_start, pos.
  destruct (back ans =? -1).
  - destruct (colex x); [reflexivity|]. rewrite ptr_add_add.
    now replace (len - k x + - i) with (len - k x - i) by lia.
  - destruct (sg_walk _ _) as [column| | |]; try reflexivity. cbn [bind].
    assert (Hf : (if colex x then i [+] k x [-] 1 else len [-] k x [-] i)
                 = forward_pos x (if colex x then i else len - k x - i)).
    { unfold forward_pos. unfold Int64.max_signed in len_max.
      destruct (colex x); int64_exact; lia. }
    rewrite Hf. destruct (deref input _) as [c0| | |]; try reflexivity. cbn [bind].
    destruct (char_idx (toupper c0)); [|reflexivity].
    destruct (at_ (C x) _) as [Cc| | |]; try reflexivity. cbn [bind].
    unfold one_step. now destruct (_ =? _).
Qed.

Lemma first_kmer_start_pos : first_kmer_start = ptr_add input (pos 0).
Proof.
  unfold first_kmer_start, pos. destruct (colex x).
  - symmetry. apply ptr_add_0.
  - f_equal. lia.
Qed.

(** The state of the loop when it reaches the index [j]: one entry for each
    of the [j] windows handled so far, each computed from the one before. *)
Let handled (j : nat) (ans : list Z) : Prop :=
  length ans = j
  /\ (forall m, (m < j)%nat ->
       window_answer x input (pos (Z.of_nat m))
         (match m with O => -1 | S m' => nth m' ans 0 end)
       = Ret (nth m ans 0)).

Lemma handled_first v :
  search x first_kmer_start = Ret v -> handled 1 (push_back [] v).
Proof.
  intros Hv. split; [reflexivity|].
  intros m Hm. assert (m = 0%nat) as -> by lia.
  unfold window_answer. change (-1 =? -1) with true. cbv iota.
  change (Z.of_nat 0) with 0. now rewrite <- first_kmer_start_pos.
Qed.

Lemma handled_push j ans v :
  (1 <= j)%nat -> handled j ans ->
  window_answer x input (pos (Z.of_nat j)) (back ans) = Ret v ->
  handled (S j) (push_back ans v).
Proof.
  intros Hj (Hlen & Hans) Hv. unfold push_back. split.
  - rewrite length_app. simpl. lia.
  - assert (Hback : back ans = nth (j - 1) ans 0)
      by (unfold back; rewrite last_nth, Hlen; reflexivity).
    intros m Hm. destruct (Nat.eq_dec m j) as [->|].
    + rewrite <- Hlen at 3. rewrite nth_middle.
      destruct j as [|j']; [lia|]. rewrite app_nth1 by lia.
      rewrite <- Hv, Hback. do 2 f_equal. lia.
    + rewrite app_nth1 by lia.
      destruct m as [|m']; [apply Hans; lia|].
      rewrite app_nth1 by lia. apply Hans. lia.
Qed.

Lemma loop_index_succ (j n : nat) :
  Z.of_nat (j + S n) = len - k x + 1 -> Z.of_nat j [+] 1 = Z.of_nat (S j).
Proof. intros H. unfold Int64.max_signed in len_max. int64_exact. lia. Qed.

(** What the loop returns, when it returns. *)
Lemma streaming_loop_returned n j ans ans' :
  (1 <= j)%nat -> Z.of_nat (j + n) = len - k x + 1 -> handled j ans ->
  streaming_loop x input len first_kmer_start n (Z.of_nat j) ans = Ret ans' ->
  handled (j + n) ans'.
Proof.
  revert j ans. induction n as [|n IH]; intros j ans Hj Hjn Hans.
  - cbn [streaming_loop]. intros [= <-]. now rewrite Nat.add_0_r.
  - cbn [streaming_loop]. rewrite streaming_body_window by lia.
    rewrite (loop_index_succ j n Hjn). intros H.
    apply bind_Ret_inv in H. destruct H as (ans1 & Hbody & Hloop).
    apply bind_Ret_inv in Hbody. destruct Hbody as (v & Hv & [= <-]).
    replace (j + S n)%nat with (S j + n)%nat by lia.
    apply (IH (S j) (push_back ans v)); try lia; [|exact Hloop].
    now apply handled_push.
Qed.

(** The entries by position in the input: the loop of a lex index goes
    right to left, and its result is reversed. *)
Lemma handled_positions ans :
  handled (S (Z.to_nat (len - k x))) ans ->
  let res := if colex x then ans else rev ans in
  size res = len - k x + 1
  /\ forall p, 0 <= p <= len - k x ->
       window_answer x input p
         (if p =? first_pos x len then -1
          else nth (Z.to_nat (processed_before x p)) res 0)
       = Ret (nth (Z.to_nat p) res 0).
Proof.
  intros (Hlen & Hans). cbv zeta.
  unfold pos, first_pos, processed_before in *. unfold size.
  destruct (colex x).
  - split; [lia|]. intros p Hp.
    specialize (Hans (Z.to_nat p) ltac:(lia)).
    rewrite Z2Nat.id in Hans by lia. rewrite <- Hans. f_equal.
    destruct (Z.eqb_spec p 0) as [->|Hp0]; [reflexivity|].
    destruct (Z.to_nat p) as [|m'] eqn:Em; [lia|].
    f_equal. lia.
  - rewrite length_rev. split; [lia|]. intros p Hp.
    specialize (Hans (Z.to_nat (len - k x - p)) ltac:(lia)).
    replace (len - k x - Z.of_nat (Z.to_nat (len - k x - p))) with p in Hans by lia.
    rewrite (@rev_nth _ ans 0 (Z.to_nat p)) by lia.
    replace (length ans - S (Z.to_nat p))%nat with (Z.to_nat (len - k x - p)) by lia.
    rewrite <- Hans. f_equal.
    destruct (Z.eqb_spec p (len - k x)) as [->|Hp0].
    + now replace (Z.to_nat (len - k x - (len - k x))) with 0%nat by lia.
    + destruct (Z.to_nat (len - k x - p)) as [|m'] eqn:Em; [lia|].
      rewrite rev_nth by lia. f_equal. lia.
Qed.

Lemma streaming_search_unfold :
  has_streaming_query_support x = true ->
  streaming_search x input len
  = (v <- search x first_kmer_start ;;
     ans <- streaming_loop x input len first_kmer_start
              (Z.to_nat (len - k x)) (Z.of_nat 1) (push_back [] v) ;;
     Ret (if colex x then ans else rev ans)).
Proof.
  intros Hsup. unfold streaming_search.
  destruct (size (suffix_group_starts x) =? 0) eqn:E;
    [apply has_streaming_query_support_false in E; congruence|].
  destruct (Z.ltb_spec len (k x)); [lia|].
  cbv zeta. fold first_kmer_start.
  now replace (len [-] k x [+] 1 - 1) with (len - k x)
    by (unfold Int64.max_signed in len_max; int64_exact; lia).
Qed.

(** When [streaming_search] returns, its result has one entry per window,
    and its entry at [p] is the one computed for the window that starts at
    [p], whichever way the loop went. *)
Lemma streaming_search_returned ans :
  has_streaming_query_support x = true ->
  streaming_search x input len = Ret ans ->
  size ans = len - k x + 1
  /\ forall p, 0 <= p <= len - k x ->
       window_answer x input p
         (if p =? first_pos x len then -1
          else nth (Z.to_nat (processed_before x p)) ans 0)
       = Ret (nth (Z.to_nat p) ans 0).
Proof.
  intros Hsup. rewrite streaming_search_unfold by assumption. intros H.
  apply bind_Ret_inv in H. destruct H as (v & Hv & H).
  apply bind_Ret_inv in H. destruct H as (ans1 & Hloop & [= <-]).
  apply handled_positions.
  replace (S (Z.to_nat (len - k x))) with (1 + Z.to_nat (len - k x))%nat by lia.
  apply (streaming_loop_returned _ _ (push_back [] v)); try lia; [|exact Hloop].
  now apply handled_first.
Qed.

(** Where the one-step extension from the entry of the neighbouring window
    agrees with a search from scratch, as the suffix-group marks of a
    well-formed index provide, every entry is the result of [search] on its
    window. *)
Lemma handled_search j ans :
  handled j ans ->
  (forall m prev, (S m < j)%nat -> prev <> -1 ->
     search x (ptr_add input (pos (Z.of_nat m))) = Ret prev ->
     window_answer x input (pos (Z.of_nat (S m))) prev
     = search x (ptr_add input (pos (Z.of_nat (S m))))) ->
  forall m, (m < j)%nat ->
    search x (ptr_add input (pos (Z.of_nat m))) = Ret (nth m ans 0).
Proof.
  intros (Hlen & Hans) Hco m. induction m as [|m IH]; intros Hm.
  - rewrite <- (Hans 0%nat Hm). reflexivity.
  - specialize (IH ltac:(lia)). rewrite <- (Hans (S m) Hm).
    destruct (Z.eq_dec (nth m ans 0) (-1)) as [E|E].
    + rewrite E. reflexivity.
    + symmetry. now apply Hco.
Qed.

(** X9. When [streaming_search] returns and, on this input, a one-step
    extension from a found neighbouring window gives what [search] gives on
    the window, every entry of the result is the result of [search] on the
    window at its position, in a colex and in a lex index. *)
Lemma streaming_search_agrees_with_search ans :
  has_streaming_query_support x = true ->
  streaming_search x input len = Ret ans ->
  (forall p prev, 0 <= p <= len - k x -> p <> first_pos x len -> prev <> -1 ->
     search x (ptr_add input (processed_before x p)) = Ret prev ->
     window_answer x input p prev = search x (ptr_add input p)) ->
  forall p, 0 <= p <= len - k x ->
    search x (ptr_add input p) = Ret (nth (Z.to_nat p) ans 0).
Proof.
  intros Hsup. rewrite streaming_search_unfold by assumption. intros H Hco.
  apply bind_Ret_inv in H. destruct H as (v & Hv & H).
  apply bind_Ret_inv in H. destruct H as (ans1 & Hloop & [= <-]).
  assert (Hh : handled (1 + Z.to_nat (len - k x)) ans1).
  { apply (streaming_loop_returned _ _ (push_back [] v)); try lia; [|exact Hloop].
    now apply handled_first. }
  pose proof (handled_search _ _ Hh) as Hs.
  destruct Hh as (Hlen & _).
  unfold pos, first_pos, processed_before in *.
  destruct (colex x).
  - intros p Hp. rewrite <- (Z2Nat.id p) at 1 by lia. apply Hs; [|lia].
    intros m prev Hm Hprev Hsearch. apply Hco; try lia.
    now replace (Z.of_nat (S m) - 1) with (Z.of_nat m) by lia.
  - intros p Hp. rewrite (@rev_nth _ ans1 0 (Z.to_nat p)) by lia.
    replace (length ans1 - S (Z.to_nat p))%nat with (Z.to_nat (len - k x - p)) by lia.
    replace p with (len - k x - Z.of_nat (Z.to_nat (len - k x - p))) at 1 by lia.
    apply Hs; [|lia].
    intros m prev Hm Hprev Hsearch. apply Hco; try lia.
    now replace (len - k x - Z.of_nat (S m) + 1) with (len - k x - Z.of_nat m) by lia.
Qed.

Hypothesis off_nonneg : 0 <= off input.
Hypothesis buf_len : off input + len <= size (buf input).
Hypothesis C_length : length (C x) = 4%nat.
Hypothesis first_marked : nth_error (suffix_group_starts x) 0 = Some true.
Hypothesis searches_return :
  forall p, 0 <= p <= len - k x ->
  exists v, search x (ptr_add input p) = Ret v /\ in_columns x v = true.
Hypothesis steps_in_range :
  forall column c ci,
    0 <= column < size (suffix_group_starts x) -> char_idx c = Some ci ->
    in_columns x (one_step x (nth ci (C x) 0) column c) = true.

Lemma window_answer_total p prev :
  0 <= p <= len - k x -> in_columns x prev = true ->
  (prev <> -1 -> p <> first_pos x len) ->
  exists v, window_answer x input p prev = Ret v /\ in_columns x v = true.
Proof.
  intros Hp Hprev Hfirst. unfold window_answer.
  destruct (Z.eqb_spec prev (-1)) as [_|Hne]; [now apply searches_return|].
  apply in_columns_cases in Hprev. destruct Hprev as [|Hprev]; [contradiction|].
  destruct (sg_walk_total _ prev first_marked Hprev) as (column & -> & Hcol).
  cbn [bind].
  assert (Hpos : 0 <= forward_pos x p < len).
  { specialize (Hfirst Hne). unfold forward_pos, first_pos in *.
    destruct (colex x); lia. }
  destruct (nth_error (buf input) (Z.to_nat (off input + forward_pos x p)))
    as [c0|] eqn:Hc0; [|apply nth_error_None in Hc0; unfold size in *; lia].
  unfold deref. rewrite (at_Ret _ _ c0) by (auto; lia). cbn [bind].
  destruct (char_idx (toupper c0)) as [ci|] eqn:Hci.
  - rewrite at_C by eauto using char_idx_lt. cbn [bind].
    eexists. split; [reflexivity|]. apply steps_in_range; [lia|assumption].
  - exists (-1). split; reflexivity.
Qed.

(** The loop runs to its end: every entry it pushes is -1 or a column from
    which the walk to the start of the group stays inside the bit vector. *)
Lemma streaming_loop_total n j ans :
  (1 <= j)%nat -> Z.of_nat (j + n) = len - k x + 1 ->
  in_columns x (back ans) = true ->
  exists ans',
    streaming_loop x input len first_kmer_start n (Z.of_nat j) ans = Ret ans'.
Proof.
  revert j ans. induction n as [|n IH]; intros j ans Hj Hjn Hin.
  - now exists ans.
  - cbn [streaming_loop]. rewrite streaming_body_window by lia.
    destruct (window_answer_total (pos (Z.of_nat j)) (back ans)) as (v & Hv & Hvin).
    { unfold pos. destruct (colex x); lia. }
    { exact Hin. }
    { intros _. unfold pos, first_pos. destruct (colex x); lia. }
    rewrite Hv. cbn [bind]. rewrite (loop_index_succ j n Hjn).
    apply IH; try lia. unfold back, push_back. now rewrite last_last.
Qed.

Lemma streaming_search_total :
  has_streaming_query_support x = true ->
  exists ans, streaming_search x input len = Ret ans.
Proof.
  intros Hsup. rewrite streaming_search_unfold by assumption.
  destruct (searches_return (pos 0)) as (v0 & Hv0 & Hin0).
  { unfold pos. destruct (colex x); lia. }
  assert (Hs0 : search x first_kmer_start = Ret v0)
    by (now rewrite first_kmer_start_pos).
  rewrite Hs0. cbn [bind].
  destruct (streaming_loop_total (Z.to_nat (len - k x)) 1 (push_back [] v0))
    as (ans & Hloop); try lia; [exact Hin0|].
  rewrite Hloop. cbn [bind]. eauto.
Qed.

End StreamingWindows.

(** C6. On an index with suffix-group marks, [streaming_search] returns the
    empty sequence when [len < k]. When [k <= len] and it returns, it returns
    [len - k + 1] entries, and the entry at position [p] is the one computed
    for the window that starts at [p] of the input, from the entry of the
    window to its left in a colex index and to its right in a lex one. It
    does return when the input holds [len] characters, the first column is
    marked, the searches of the windows return and the columns reached stay
    inside the index. *)
Theorem streaming_search_entries (x : SBWT R) (input : char_ptr) (len : Z) :
  has_streaming_query_support x = true ->
  (len < k x -> streaming_search x input len = Ret [])
  /\ (k x <= len -> 0 <= k x -> len < Int64.max_signed ->
      (forall ans, streaming_search x input len = Ret ans ->
         size ans = len - k x + 1
         /\ forall p, 0 <= p <= len - k x ->
            window_answer x input p
              (if p =? first_pos x len then -1
               else nth (Z.to_nat (processed_before x p)) ans 0)
            = Ret (nth (Z.to_nat p) ans 0))
      /\ (0 <= off input -> off input + len <= size (buf input) ->
          length (C x) = 4%nat ->
          nth_error (suffix_group_starts x) 0 = Some true ->
          (forall p, 0 <= p <= len - k x ->
             exists v, search x (ptr_add input p) = Ret v
                       /\ in_columns x v = true) ->
          (forall column c ci,
             0 <= column < size (suffix_group_starts x) ->
             char_idx c = Some ci ->
             in_columns x (one_step x (nth ci (C x) 0) column c) = true) ->
          exists ans, streaming_search x input len = Ret ans)).
Proof.
  intros Hsup. split.
  - intros Hlt. unfold streaming_search.
    destruct (size (suffix_group_starts x) =? 0) eqn:E;
      [apply has_streaming_query_support_false in E; congruence|].
    destruct (Z.ltb_spec len (k x)); [reflexivity|lia].
  - intros Hle Hk0 Hmax. split.
    + intros ans Hans. now apply streaming_search_returned.
    + intros Hoff Hbuf HC Hsg Hsearch Hstep.
      now apply streaming_search_total.
Qed.

End IndexProperties.

(** ** The C array of a constructed index *)

Lemma filter_nth_seq (v : bit_vector) (n : nat) :
  length (filter (fun j => nth j v false) (seq 0 n))
  = length (filter (fun b => b) (firstn n v)).
Proof.
  revert n. induction v as [|b v IH]; intros n.
  - rewrite firstn_nil. simpl.
    induction (seq 0 n) as [|j l IHl]; simpl; [reflexivity|].
    now destruct j.
  - destruct n as [|n]; [reflexivity|].
    rewrite <- cons_seq, <- seq_shift. simpl.
    rewrite filter_map_swap. simpl.
    destruct b; simpl; rewrite length_map, IH; reflexivity.
Qed.

Lemma split_rank_firstn (r : SubsetSplitRank) (i : Z) :
  split_rank r i "A" = total_rank (firstn (Z.to_nat i) (A_bits r))
  /\ split_rank r i "C" = total_rank (firstn (Z.to_nat i) (C_bits r))
  /\ split_rank r i "G" = total_rank (firstn (Z.to_nat i) (G_bits r))
  /\ split_rank r i "T" = total_rank (firstn (Z.to_nat i) (T_bits r)).
Proof.
  unfold split_rank, total_rank, size, in_subset. simpl.
  now rewrite !filter_nth_seq.
Qed.

Lemma total_rank_bounds (v : bit_vector) : 0 <= total_rank v <= size v.
Proof.
  unfold total_rank, size. pose proof (filter_length_le (fun b : bool => b) v). lia.
Qed.

(** C5, as the code has it. For an index constructed from four bit vectors
    of the same length [N] (small enough for the sums of [int64_t] not to
    overflow), the C array is non-decreasing, [C[c+1] - C[c]] is the number of
    1-bits of the vector of character [c] for [c] in 0, 1, 2, which is
    [rank(N, c)], and [C[3]] plus the number of 1-bits of [T_bits] is one
    more than the number of 1-bits of the four vectors together. *)
Theorem C_array_consistency (a c g t streaming_support : bit_vector)
    (k n_kmers : Z) (colex : bool) :
  length c = length a -> length g = length a -> length t = length a ->
  3 * size a + 1 <= Int64.max_signed ->
  let x := SBWT_new a c g t streaming_support k n_kmers colex in
  let C := fun i => nth i (get_C_array x) 0 in
  let N := number_of_subsets x in
  C 0%nat <= C 1%nat /\ C 1%nat <= C 2%nat /\ C 2%nat <= C 3%nat
  /\ rank (get_subset_rank_structure x) N "A" = total_rank a
  /\ rank (get_subset_rank_structure x) N "C" = total_rank c
  /\ rank (get_subset_rank_structure x) N "G" = total_rank g
  /\ rank (get_subset_rank_structure x) N "T" = total_rank t
  /\ C 1%nat - C 0%nat = total_rank a
  /\ C 2%nat - C 1%nat = total_rank c
  /\ C 3%nat - C 2%nat = total_rank g
  /\ C 3%nat + total_rank t
     = 1 + (total_rank a + total_rank c + total_rank g + total_rank t).
Proof.
  intros Hc Hg Ht Hsmall. cbv zeta.
  unfold get_C_array, number_of_subsets, get_subset_rank_structure, SBWT_new.
  cbn [C n_nodes subset_rank nth rank SplitRank sr_build].
  pose proof (total_rank_bounds a) as Ba. pose proof (total_rank_bounds c) as Bc.
  pose proof (total_rank_bounds g) as Bg. pose proof (total_rank_bounds t) as Bt.
  assert (Hs : size c = size a /\ size g = size a /\ size t = size a)
    by (unfold size; lia).
  assert (Hn : Int64.wrap (size a) = size a)
    by (apply int64_wrap_small; unfold size in *; int64_range).
  rewrite Hn.
  destruct (split_rank_firstn
              {| A_bits := a; C_bits := c; G_bits := g; T_bits := t |} (size a))
    as (Ra & Rc & Rg & Rt).
  cbn [A_bits C_bits G_bits T_bits] in *.
  unfold size in Ra, Rc, Rg, Rt. rewrite Nat2Z.id in *.
  rewrite <- Hc in Rc at 2. rewrite <- Hg in Rg at 2. rewrite <- Ht in Rt at 2.
  rewrite firstn_all in *. fold (size a) in *.
  rewrite Ra, Rc, Rg, Rt.
  unfold Int64.max_signed in Hsmall.
  int64_exact. lia.
Qed.

Lemma C_array_consistency_witness :
  let x := example_colex in
  nth 1 (get_C_array x) 0 - nth 0 (get_C_array x) 0 = 3
  /\ nth 3 (get_C_array x) 0 + total_rank (bits "0000010") = 1 + (3 + 1 + 1 + 1).
Proof.
  pose proof (C_array_consistency
                (bits "0101001") (bits "0100000") (bits "0000100") (bits "0000010")
                (bits "1101111") 3 6 true
                ltac:(reflexivity) ltac:(reflexivity) ltac:(reflexivity)
                ltac:(vm_compute; discriminate)) as H.
  cbv zeta in H. split; apply H.
Defined.

(** C5, as the specification has it, fails on the index of the six 3-mers:
    it has [N = 7] columns, [C[3] = 6] and one 1-bit in [T_bits], and
    [6 + 1] is [N], not [N + 1]. *)
Lemma C_array_N_plus_1_counterexample :
  let x := example_colex in
  ~ (nth 3 (get_C_array x) 0 + total_rank (T_bits (get_subset_rank_structure x))
     = number_of_subsets x + 1).
Proof. vm_compute. discriminate. Qed.

(** ** Case of the characters *)

(** C4 at the index of the six 3-mers: AAA is found at column 1, and its
    lower-case spelling is not found, because [rank] receives the character
    as it was read and no subset contains a lower-case letter. *)
Lemma search_lowercase_differs :
  map toupper (list_ascii_of_string "aaa") = list_ascii_of_string "AAA"
  /\ search example_colex (str "aaa") = Ret (-1)
  /\ search example_colex (str "AAA") = Ret 1.
Proof. repeat split. Qed.

(** C3 at the index of the six 3-mers and the k-mer aaa: the algorithm of
    the specification, which ranks the upper-cased character, narrows the
    range [0 .. 6] to column 1 in its three steps, and [search], which ranks
    the character as it was read, returns -1 at the first step. On AAA the
    two agree on column 1. *)
Lemma search_differs_from_spec_algorithm :
  spec_search example_colex (list_ascii_of_string "aaa") = Some (1, 1)
  /\ search example_colex (str "aaa") = Ret (-1)
  /\ spec_search example_colex (list_ascii_of_string "AAA") = Some (1, 1)
  /\ search example_colex (str "AAA") = Ret 1.
Proof. repeat split. Qed.

(** C1 at the index of the six 3-mers and the input AAAa: the second entry
    of [streaming_search], computed from the upper-cased last character, is
    column 1, and [search] on the second window AAa returns -1. *)
Lemma streaming_mixed_case_differs :
  let s := list_ascii_of_string "AAAa" in
  streaming_search_string example_colex s = Ret [1; 1]
  /\ search example_colex (c_str (window 3 s 1)) = Ret (-1)
  /\ search example_colex (c_str (window 3 s 0)) = Ret 1.
Proof. repeat split. Qed.

(** ** Serialization *)

(** C2 at the index of the six 3-mers, loaded into a fresh object: the bytes
    hold no count of k-mers, and the loaded index reports 0 where the
    serialized one reports 6. Every other field is restored. *)
Lemma load_serialize_loses_n_kmers :
  exists y,
    load SBWT_default (fst (serialize example_colex)) = Some (y, [])
    /\ number_of_kmers y = 0
    /\ number_of_kmers example_colex = 6
    /\ is_colex y = is_colex example_colex
    /\ number_of_subsets y = number_of_subsets example_colex
    /\ get_k y = get_k example_colex
    /\ get_C_array y = get_C_array example_colex
    /\ get_streaming_support y = get_streaming_support example_colex
    /\ get_subset_rank_structure y = get_subset_rank_structure example_colex.
Proof. eexists. split; [vm_compute; reflexivity|]. repeat split. Qed.

(** ** Instances on the index of the six 3-mers *)

Lemma search_depends_on_first_k_witness :
  search example_colex (str "CGTA") = search example_colex (str "CGTT").
Proof.
  apply search_depends_on_first_k.
  - vm_compute. split; discriminate.
  - intros i Hi. change (k example_colex) with 3 in Hi.
    assert (Hc : i = 0 \/ i = 1 \/ i = 2) by lia.
    destruct Hc as [-> | [-> | ->]]; reflexivity.
Defined.

Lemma search_returns_collapsed_range_witness :
  search_walk example_colex (str "CGT") = Ret (Completed 6 6)
  /\ search example_colex (str "CGT") = Ret 6.
Proof.
  destruct (search_returns_collapsed_range example_colex (str "CGT"))
    as (_ & Hsame & _ & Hret).
  split.
  - apply Hret; [reflexivity|lia].
  - apply Hsame. reflexivity.
Defined.

Lemma char_idx_Some (c : ascii) (ci : nat) :
  char_idx c = Some ci ->
  (c = "A" /\ ci = 0 \/ c = "C" /\ ci = 1 \/ c = "G" /\ ci = 2
   \/ c = "T" /\ ci = 3)%char%nat.
Proof.
  unfold char_idx.
  destruct (Ascii.eqb_spec c "A"); [intros [= <-]; auto|].
  destruct (Ascii.eqb_spec c "C"); [intros [= <-]; auto|].
  destruct (Ascii.eqb_spec c "G"); [intros [= <-]; auto|].
  destruct (Ascii.eqb_spec c "T"); [intros [= <-]; auto 6|].
  discriminate.
Qed.

Lemma streaming_search_entries_witness :
  exists ans,
    streaming_search example_colex (str "AACGTAA") 7 = Ret ans
    /\ size ans = 7 - 3 + 1.
Proof.
  destruct (streaming_search_entries example_colex (str "AACGTAA") 7 eq_refl)
    as [_ H].
  destruct H as [Hret Htot].
  - vm_compute. discriminate.
  - vm_compute. discriminate.
  - vm_compute. reflexivity.
  - destruct Htot as [ans Hans].
    + simpl. lia.
    + vm_compute. discriminate.
    + reflexivity.
    + reflexivity.
    + intros p Hp. change (k example_colex) with 3 in Hp.
      assert (Hc : p = 0 \/ p = 1 \/ p = 2 \/ p = 3 \/ p = 4) by lia.
      destruct Hc as [-> | [-> | [-> | [-> | ->]]]];
        eexists; (split; [vm_compute; reflexivity | reflexivity]).
    + intros column c ci Hcol Hc.
      change (size (suffix_group_starts example_colex)) with 7 in Hcol.
      assert (Hcases : column = 0 \/ column = 1 \/ column = 2 \/ column = 3
                       \/ column = 4 \/ column = 5 \/ column = 6) by lia.
      apply char_idx_Some in Hc.
      destruct Hc as [[-> ->] | [[-> ->] | [[-> ->] | [-> ->]]]];
        destruct Hcases as [-> | [-> | [-> | [-> | [-> | [-> | ->]]]]]];
        reflexivity.
    + exists ans. split; [exact Hans|]. now apply Hret.
Defined.

(** ** What [load] restores *)

Lemma Z_of_byte_of_Z (z : Z) : 0 <= z < 256 -> Z_of_byte (byte_of_Z z) = z.
Proof.
  intros Hz. unfold Z_of_byte, byte_of_Z.
  rewrite ascii_of_byte_of_ascii, N_ascii_embedding by lia. lia.
Qed.

Lemma length_le_bytes (n : nat) (u : Z) : length (le_bytes n u) = n.
Proof. revert u. induction n as [|n IH]; intros u; simpl; [reflexivity|]. now rewrite IH. Qed.

Lemma le_value_le_bytes (n : nat) (u : Z) :
  le_value (le_bytes n u) = u mod 256 ^ Z.of_nat n.
Proof.
  revert u. induction n as [|n IH]; intros u.
  - simpl. now rewrite Z.mod_1_r.
  - cbn [le_bytes le_value]. rewrite IH.
    rewrite Z_of_byte_of_Z by (apply Z.mod_pos_bound; lia).
    rewrite Nat2Z.inj_succ, Z.pow_succ_r by lia.
    rewrite Z.rem_mul_r by lia. reflexivity.
Qed.

Lemma read_bytes_app (bs rest : list byte) :
  read_bytes (length bs) (bs ++ rest) = Some (bs, rest).
Proof.
  unfold read_bytes. rewrite length_app.
  destruct (Nat.leb_spec (length bs) (length bs + length rest)); [|lia].
  rewrite firstn_app, Nat.sub_diag, firstn_all, firstn_O, app_nil_r.
  rewrite skipn_app, Nat.sub_diag, skipn_all. reflexivity.
Qed.

Lemma read_uint64_write (v : Z) (rest : list byte) :
  read_uint64 (write_int64 v ++ rest) = Some (v mod 2 ^ 64, rest).
Proof.
  unfold read_uint64, write_int64.
  rewrite <- (length_le_bytes 8 (v mod 2 ^ 64)) at 1.
  rewrite read_bytes_app, le_value_le_bytes.
  change (256 ^ Z.of_nat 8) with (2 ^ 64). now rewrite Z.mod_mod by lia.
Qed.

Lemma read_int64_write (v : Z) (rest : list byte) :
  Int64.in_range v -> read_int64 (write_int64 v ++ rest) = Some (v, rest).
Proof.
  intros Hv. unfold read_int64. rewrite read_uint64_write.
  do 2 f_equal. unfold Int64.wrap.
  rewrite Zplus_mod_idemp_l. now apply int64_wrap_small.
Qed.

Lemma read_int64s_write (v : list Z) (rest : list byte) :
  Forall Int64.in_range v ->
  read_int64s (length v) (flat_map write_int64 v ++ rest) = Some (v, rest).
Proof.
  induction 1 as [|z v Hz _ IH]; [reflexivity|].
  cbn [length flat_map read_int64s]. rewrite <- app_assoc.
  now rewrite read_int64_write, IH.
Qed.

Lemma load_std_vector_serialize (v : list Z) (rest : list byte) :
  Forall Int64.in_range v -> 8 * size v <= Int64.max_signed ->
  load_std_vector (fst (serialize_std_vector v) ++ rest) = Some (v, rest).
Proof.
  intros Hv Hsize. unfold load_std_vector, serialize_std_vector. cbn [fst].
  assert (Hn : Int64.wrap (8 * size v) = 8 * size v)
    by (apply int64_wrap_small; unfold size in *; int64_range).
  rewrite Hn, <- app_assoc, read_int64_write
    by (unfold size in *; int64_range).
  destruct (Z.leb_spec 0 (8 * size v)); [|unfold size in *; lia].
  replace (8 * size v mod 8) with 0 by (rewrite Z.mul_comm, Z.mod_mul; lia).
  cbn [andb Z.eqb].
  replace (Z.to_nat (8 * size v / 8)) with (length v)
    by (rewrite Z.mul_comm, Z.div_mul by lia; unfold size; lia).
  now apply read_int64s_write.
Qed.

Lemma bits_of_byte_of_bits (l : list bool) :
  bits_of_byte (byte_of_bits l)
  = [nth 0 l false; nth 1 l false; nth 2 l false; nth 3 l false;
     nth 4 l false; nth 5 l false; nth 6 l false; nth 7 l false].
Proof. unfold bits_of_byte, byte_of_bits. now rewrite ascii_of_byte_of_ascii. Qed.

Lemma length_pack_bytes (n : nat) (v : list bool) : length (pack_bytes n v) = n.
Proof. revert v. induction n as [|n IH]; intros v; simpl; [reflexivity|]. now rewrite IH. Qed.

Lemma unpack_pack (m : nat) (v : list bool) :
  (length v <= 8 * m)%nat ->
  firstn (length v) (flat_map bits_of_byte (pack_bytes m v)) = v.
Proof.
  revert v. induction m as [|m IH]; intros v Hv.
  - destruct v; [reflexivity|simpl in Hv; lia].
  - cbn [pack_bytes flat_map]. rewrite bits_of_byte_of_bits.
    destruct v as [|b0 [|b1 [|b2 [|b3 [|b4 [|b5 [|b6 [|b7 v]]]]]]]];
      try reflexivity.
    cbn [firstn skipn nth length app]. do 8 f_equal.
    apply IH. simpl in Hv. lia.
Qed.

Lemma words_bytes_enough (n : nat) : (n <= 8 * words_bytes n)%nat.
Proof.
  unfold words_bytes.
  pose proof (Nat.div_mod_eq (n + 63) 64).
  pose proof (Nat.mod_upper_bound (n + 63) 64). lia.
Qed.

Lemma bv_load_serialize (v : bit_vector) (rest : list byte) :
  size v < 2 ^ 64 -> bv_load (bv_serialize v ++ rest) = Some (v, rest).
Proof.
  intros Hv. unfold bv_load, bv_serialize.
  rewrite <- app_assoc, read_uint64_write.
  rewrite Z.mod_small by (unfold size in *; lia).
  unfold size. rewrite Nat2Z.id.
  rewrite <- (length_pack_bytes (words_bytes (length v)) v) at 1.
  rewrite read_bytes_app.
  now rewrite unpack_pack by apply words_bytes_enough.
Qed.

Lemma split_load_serialize (r : SubsetSplitRank) (rest : list byte) :
  size (A_bits r) < 2 ^ 64 -> size (C_bits r) < 2 ^ 64 ->
  size (G_bits r) < 2 ^ 64 -> size (T_bits r) < 2 ^ 64 ->
  sr_load (sr_serialize r ++ rest) = Some (r, rest).
Proof.
  intros Ha Hc Hg Ht. destruct r as [a c g t].
  cbn [sr_load sr_serialize SplitRank A_bits C_bits G_bits T_bits] in *.
  unfold split_load. rewrite <- !app_assoc.
  now rewrite !bv_load_serialize.
Qed.

Section LoadSerialize.

Context {R : Type} {SR : SubsetRank R}.

Lemma fst_serialize (x : SBWT R) :
  fst (serialize x)
  = sr_serialize (subset_rank x) ++ bv_serialize (suffix_group_starts x)
    ++ fst (serialize_std_vector (C x)) ++ write_int64 (n_nodes x)
    ++ write_int64 (k x) ++ le_bytes 1 (if colex x then 1 else 0).
Proof. reflexivity. Qed.

(** [load] on the bytes of [serialize x] restores every field of [x] but
    [n_kmers], which keeps the value it had in the object loaded into. *)
Lemma load_serialize (x y : SBWT R) (rest : list byte) :
  (forall rest', sr_load (sr_serialize (subset_rank x) ++ rest')
                 = Some (subset_rank x, rest')) ->
  size (suffix_group_starts x) < 2 ^ 64 ->
  Forall Int64.in_range (C x) -> 8 * size (C x) <= Int64.max_signed ->
  Int64.in_range (n_nodes x) -> Int64.in_range (k x) ->
  load y (fst (serialize x) ++ rest) = Some (with_n_kmers x (n_kmers y), rest).
Proof.
  intros Hsr Hsg HC HCsize Hn Hk. unfold load.
  rewrite fst_serialize, <- !app_assoc.
  rewrite Hsr, bv_load_serialize, load_std_vector_serialize by assumption.
  rewrite !read_int64_write by assumption.
  change 1%nat with (length (le_bytes 1 (if colex x then 1 else 0))) at 1.
  rewrite read_bytes_app, le_value_le_bytes.
  unfold with_n_kmers. do 3 f_equal. now destruct (colex x).
Qed.

(** The queries do not read [n_kmers]. *)
Lemma search_loop_with_n_kmers (x : SBWT R) (m : Z) kmer n i l r :
  search_loop (with_n_kmers x m) kmer n i l r = search_loop x kmer n i l r.
Proof.
  revert i l r. induction n as [|n IH]; intros i l r; [reflexivity|].
  cbn [search_loop with_n_kmers colex k C subset_rank].
  destruct (deref kmer _) as [c| | |]; try reflexivity. cbn [bind].
  destruct (char_idx (toupper c)); [|reflexivity].
  destruct (at_ (C x) _) as [Cc| | |]; try reflexivity. cbn [bind].
  destruct (_ >? _); [reflexivity|]. apply IH.
Qed.

Lemma search_with_n_kmers (x : SBWT R) (m : Z) kmer :
  search (with_n_kmers x m) kmer = search x kmer.
Proof.
  unfold search, search_walk. now rewrite search_loop_with_n_kmers.
Qed.

Lemma streaming_loop_with_n_kmers (x : SBWT R) (m : Z) input len fks n i ans :
  streaming_loop (with_n_kmers x m) input len fks n i ans
  = streaming_loop x input len fks n i ans.
Proof.
  revert i ans. induction n as [|n IH]; intros i ans; [reflexivity|].
  cbn [streaming_loop]. unfold streaming_body.
  rewrite !search_with_n_kmers.
  cbn [with_n_kmers colex k C subset_rank suffix_group_starts].
  destruct (back ans =? -1).
  - destruct (search x _); try reflexivity. cbn [bind]. apply IH.
  - destruct (sg_walk _ _); try reflexivity. cbn [bind].
    destruct (deref input _) as [c0| | |]; try reflexivity. cbn [bind].
    destruct (char_idx (toupper c0)); [|cbn [bind]; apply IH].
    destruct (at_ (C x) _); try reflexivity. cbn [bind].
    destruct (_ =? _); cbn [bind]; apply IH.
Qed.

Lemma streaming_search_with_n_kmers (x : SBWT R) (m : Z) input len :
  streaming_search (with_n_kmers x m) input len = streaming_search x input len.
Proof.
  unfold streaming_search. rewrite !search_with_n_kmers.
  cbn [with_n_kmers colex k suffix_group_starts].
  destruct (_ =? 0); [reflexivity|]. destruct (len <? k x); [reflexivity|].
  destruct (search x _); try reflexivity. cbn [bind].
  now rewrite streaming_loop_with_n_kmers.
Qed.

(** X1. The round trip of an index through its bytes, as far as it holds:
    the index loaded into [y] answers every accessor as [x] does, except
    [number_of_kmers], which keeps the value it had in [y], and every query
    as [x] does. *)
Lemma load_serialize_observations (x y : SBWT R) :
  (forall rest', sr_load (sr_serialize (subset_rank x) ++ rest')
                 = Some (subset_rank x, rest')) ->
  size (suffix_group_starts x) < 2 ^ 64 ->
  Forall Int64.in_range (C x) -> 8 * size (C x) <= Int64.max_signed ->
  Int64.in_range (n_nodes x) -> Int64.in_range (k x) ->
  exists x',
    load y (fst (serialize x)) = Some (x', [])
    /\ is_colex x' = is_colex x
    /\ number_of_subsets x' = number_of_subsets x
    /\ get_k x' = get_k x
    /\ get_C_array x' = get_C_array x
    /\ get_streaming_support x' = get_streaming_support x
    /\ has_streaming_query_support x' = has_streaming_query_support x
    /\ get_subset_rank_structure x' = get_subset_rank_structure x
    /\ number_of_kmers x' = number_of_kmers y
    /\ (forall kmer, search x' kmer = search x kmer)
    /\ (forall input len, streaming_search x' input len = streaming_search x input len).
Proof.
  intros Hsr Hsg HC HCsize Hn Hk. exists (with_n_kmers x (n_kmers y)).
  split.
  - rewrite <- (app_nil_r (fst (serialize x))). now apply load_serialize.
  - repeat split; auto using search_with_n_kmers, streaming_search_with_n_kmers.
Qed.

End LoadSerialize.

Lemma load_serialize_observations_instance :
  exists x',
    load SBWT_default (fst (serialize example_colex)) = Some (x', [])
    /\ number_of_kmers x' = 0
    /\ forall input len,
         streaming_search x' input len = streaming_search example_colex input len.
Proof.
  destruct (load_serialize_observations example_colex SBWT_default)
    as (x' & Hl & _ & _ & _ & _ & _ & _ & _ & Hn & _ & Hs).
  - intros rest'. apply split_load_serialize; vm_compute; reflexivity.
  - vm_compute. reflexivity.
  - repeat constructor; vm_compute; discriminate.
  - vm_compute. discriminate.
  - vm_compute. split; discriminate.
  - vm_compute. split; discriminate.
  - exists x'. repeat split; assumption.
Defined.

(** ** The scenarios of the six 3-mers *)

Example scenario_colex :
  search example_colex (str "AAA") = Ret 1
  /\ search example_colex (str "CGT") = Ret 6
  /\ search example_colex (str "AAN") = Ret (-1)
  /\ search example_colex (str "AAT") = Ret (-1)
  /\ streaming_search_string example_colex (list_ascii_of_string "AACGTAA")
     = Ret [4; 5; 6; 3; 2]
  /\ map (fun w => search example_colex (str w))
         ["AAC"; "ACG"; "CGT"; "GTA"; "TAA"]%string
     = [Ret 4; Ret 5; Ret 6; Ret 3; Ret 2]
  /\ streaming_search_string example_colex (list_ascii_of_string "AA") = Ret [].
Proof. repeat split. Qed.

Example scenario_lex :
  streaming_search_string example_lex (list_ascii_of_string "AACGTAA")
  = Ret [2; 3; 4; 5; 6]
  /\ map (fun w => search example_lex (str w))
         ["AAC"; "ACG"; "CGT"; "GTA"; "TAA"]%string
     = [Ret 2; Ret 3; Ret 4; Ret 5; Ret 6]
  /\ search example_lex (str "AAT") = Ret (-1)
  /\ streaming_search_string example_lex (list_ascii_of_string "AA") = Ret [].
Proof. repeat split. Qed.

(** On the upper-case input AACGTAA the one-step extensions agree with the
    searches, and every entry is the result of [search] on its window. *)
Lemma streaming_search_agrees_with_search_instance :
  search example_colex (ptr_add (str "AACGTAA") 3)
  = Ret (nth (Z.to_nat 3) [4; 5; 6; 3; 2] 0).
Proof.
  apply (streaming_search_agrees_with_search example_colex (str "AACGTAA") 7);
    [| | | | | |vm_compute; split; discriminate].
  - vm_compute. discriminate.
  - vm_compute. discriminate.
  - vm_compute. reflexivity.
  - reflexivity.
  - reflexivity.
  - intros p prev Hp Hfirst Hprev Hsearch.
    change (k example_colex) with 3 in Hp.
    change (first_pos example_colex 7) with 0 in Hfirst.
    assert (Hc : p = 1 \/ p = 2 \/ p = 3 \/ p = 4) by lia.
    destruct Hc as [-> | [-> | [-> | ->]]];
      vm_compute in Hsearch; injection Hsearch as <-; reflexivity.
Defined.

(** * Further properties of the queries *)

Section QueryProperties.

Context {R : Type} {SR : SubsetRank R}.
Implicit Types (x : SBWT R) (kmer input : char_ptr).

(** [search] as a fold of the narrowing step, for the proofs below. *)
Lemma search_as_narrowing x kmer :
  length (C x) = 4%nat -> Int64.in_range (k x) ->
  0 <= off kmer -> off kmer + k x <= size (buf kmer) ->
  search x kmer =
  match search_by_narrowing x (chars_at kmer (Z.to_nat (k x))) with
  | None => Ret (-1)
  | Some (l, r) => if l =? r then Ret l else Exit 1
  end.
Proof.
  intros HC Hk Hoff Hlen.
  unfold search, search_walk, search_by_narrowing, reading_order.
  destruct (Z.to_nat (k x)) as [|kn'] eqn:E.
  - unfold chars_at. simpl. now destruct (colex x).
  - set (kn := S kn'). set (w := chars_at kmer kn).
    assert (Hn : off kmer + Z.of_nat kn <= size (buf kmer)) by (unfold size in *; lia).
    assert (Hw : length w = kn) by (apply (deref_chars_at kmer kn 0%nat); auto; lia).
    change (search_loop x kmer kn 0) with (search_loop x kmer kn (Z.of_nat 0)).
    rewrite (search_loop_narrow x kmer w kn 0) by
      (auto; try lia; intros j Hj; apply deref_chars_at; auto; lia).
    replace (firstn kn w) with w by (rewrite <- Hw; symmetry; apply firstn_all).
    cbn [skipn].
    destruct (narrow_all _ _ _) as [[l r]|]; reflexivity.
Qed.

Lemma narrow_all_None x range cs c :
  In c cs -> (forall range', narrow x range' c = None) ->
  narrow_all x range cs = None.
Proof.
  intros Hin Hc. revert range. induction cs as [|c' cs IH]; intros range.
  - destruct Hin.
  - cbn [narrow_all]. destruct Hin as [->|Hin].
    + now rewrite Hc.
    + destruct (narrow x range c'); [apply IH; assumption|reflexivity].
Qed.

(** The character read at a position below [k] is among those the search
    narrows by. *)
Lemma deref_in_reading_order x kmer i c :
  0 <= off kmer -> off kmer + k x <= size (buf kmer) ->
  0 <= i < k x -> deref kmer i = Ret c ->
  In c (reading_order x (chars_at kmer (Z.to_nat (k x)))).
Proof.
  intros Hoff Hlen Hi Hc.
  destruct (deref_chars_at kmer (Z.to_nat (k x)) (Z.to_nat i)) as [Hd Hl];
    [assumption|unfold size in *; lia|lia|].
  rewrite Z2Nat.id in Hd by lia. rewrite Hd in Hc. injection Hc as <-.
  assert (Hin : In (nth (Z.to_nat i) (chars_at kmer (Z.to_nat (k x))) zero)
                   (chars_at kmer (Z.to_nat (k x))))
    by (apply nth_In; lia).
  unfold reading_order. destruct (colex x); [exact Hin|].
  now apply in_rev in Hin.
Qed.

(** X5. A character that is not one of A, C, G, T in either case, anywhere
    among the first [k], makes [search] return -1: it neither exits nor
    reads further than the [k] characters. *)
Theorem search_invalid_character x kmer i c :
  length (C x) = 4%nat -> Int64.in_range (k x) ->
  0 <= off kmer -> off kmer + k x <= size (buf kmer) ->
  0 <= i < k x -> deref kmer i = Ret c -> char_idx (toupper c) = None ->
  search x kmer = Ret (-1).
Proof.
  intros HC Hk Hoff Hlen Hi Hc Hinv.
  rewrite search_as_narrowing by assumption. unfold search_by_narrowing.
  rewrite (narrow_all_None x _ _ c); [reflexivity| |].
  - now apply (deref_in_reading_order x kmer i).
  - intros range'. unfold narrow. now rewrite Hinv.
Qed.

(** X10. With [k <= 0], as in a default-constructed index, [search] reads no
    character: it returns 0 on an index of one column and terminates the
    process with status 1 on any other. *)
Theorem search_without_characters x kmer :
  k x <= 0 ->
  search x kmer = (if n_nodes x [-] 1 =? 0 then Ret 0 else Exit 1).
Proof.
  intros Hk. unfold search, search_walk.
  replace (Z.to_nat (k x)) with 0%nat by lia. cbn [search_loop bind].
  destruct (Z.eqb_spec (n_nodes x [-] 1) 0) as [E|E].
  - rewrite E. reflexivity.
  - destruct (Z.eqb_spec 0 (n_nodes x [-] 1)); [congruence|reflexivity].
Qed.

(** X12. On an input of exactly [k] characters [streaming_search] is one
    call of [search] on the input, in a colex and in a lex index alike: the
    loop does not run, and there is nothing to reverse. *)
Theorem streaming_search_one_window x input :
  has_streaming_query_support x = true ->
  streaming_search x input (k x) = (v <- search x input ;; Ret [v]).
Proof.
  intros Hsup. unfold streaming_search.
  destruct (size (suffix_group_starts x) =? 0) eqn:E;
    [apply has_streaming_query_support_false in E; congruence|].
  rewrite Z.ltb_irrefl, Z.sub_diag, ptr_add_0.
  replace (k x [-] k x [+] 1 - 1) with 0
    by (unfold Int64.sub; rewrite Z.sub_diag; reflexivity).
  cbn [Z.to_nat streaming_loop].
  assert (Hp : (if colex x then input else input) = input) by now destruct (colex x).
  rewrite Hp. destruct (search x input); try reflexivity.
  cbn [bind push_back app]. now destruct (colex x).
Qed.

(** X11. When the assertion of [search(const string&)] holds, the call is
    the narrowing of the range by all the characters of the string: every
    read is inside the string, and the call returns a value or exits with
    status 1. *)
Theorem search_string_narrowing x (s : list ascii) (o : outcome Z) :
  length (C x) = 4%nat -> Int64.in_range (k x) -> size s <= Int64.max_signed ->
  search_string x s = Some o ->
  k x = size s
  /\ o = match search_by_narrowing x s with
         | None => Ret (-1)
         | Some (l, r) => if l =? r then Ret l else Exit 1
         end.
Proof.
  intros HC Hk Hs. unfold search_string.
  destruct (Z.eqb_spec (size s) (k x mod 2 ^ 64)) as [E|]; [|discriminate].
  intros [= <-].
  assert (Hks : k x = size s).
  { unfold Int64.in_range, Int64.min_signed, Int64.max_signed, size in *.
    destruct (Z.le_gt_cases 0 (k x)).
    - rewrite Z.mod_small in E by lia. lia.
    - replace (k x) with (k x + 2 ^ 64 + (-1) * 2 ^ 64) in E by lia.
      rewrite Z.mod_add, Z.mod_small in E by lia. lia. }
  split; [exact Hks|].
  rewrite search_as_narrowing; cbn [c_str off buf]; auto; try lia.
  - unfold chars_at. cbn [c_str off buf Z.to_nat skipn].
    rewrite Hks. unfold size. rewrite Nat2Z.id.
    now rewrite firstn_app, Nat.sub_diag, firstn_all, firstn_O, app_nil_r.
  - unfold size in *. rewrite length_app. simpl. lia.
Qed.

End QueryProperties.

(** ** [search] and the algorithm of the specification *)

Section SpecSearchProperties.

Context {R : Type} {SR : SubsetRank R}.

(** On a character that is not a lower-case a, c, g or t the step of the
    loop is the step of the specification. *)
Lemma spec_step_narrow (x : SBWT R) (range : Z * Z) (ch : ascii) :
  char_idx ch = char_idx (toupper ch) ->
  spec_step x range ch = narrow x range ch.
Proof.
  intros Hch. unfold spec_step, narrow. cbv zeta.
  destruct (char_idx (toupper ch)) as [ci|] eqn:Hci; [|reflexivity].
  apply char_idx_Some in Hch.
  assert (Hup : toupper ch = ch)
    by (destruct Hch as [[-> _] | [[-> _] | [[-> _] | [-> _]]]]; reflexivity).
  now rewrite Hup.
Qed.

Lemma spec_steps_narrow_all (x : SBWT R) (range : Z * Z) (cs : list ascii) :
  (forall ch, In ch cs -> char_idx ch = char_idx (toupper ch)) ->
  spec_steps x range cs = narrow_all x range cs.
Proof.
  revert range. induction cs as [|ch cs IH]; intros range Hcs; [reflexivity|].
  cbn [spec_steps narrow_all]. rewrite spec_step_narrow by (apply Hcs; now left).
  destruct (narrow x range ch); [|reflexivity].
  apply IH. intros ch' Hin. apply Hcs. now right.
Qed.

(** Where none of the first [k] characters is a lower-case a, c, g or t,
    [search] computes the algorithm of the specification: -1 when a step
    gives -1, the common end of the range after the [k] steps, and an exit
    with status 1 when the ends differ. *)
Lemma search_refines_spec_algorithm (x : SBWT R) (kmer : char_ptr) :
  length (C x) = 4%nat -> Int64.in_range (k x) ->
  0 <= off kmer -> off kmer + k x <= size (buf kmer) ->
  (forall ch, In ch (chars_at kmer (Z.to_nat (k x))) ->
     char_idx ch = char_idx (toupper ch)) ->
  search x kmer =
  match spec_search x (chars_at kmer (Z.to_nat (k x))) with
  | None => Ret (-1)
  | Some (l, r) => if l =? r then Ret l else Exit 1
  end.
Proof.
  intros HC Hk Hoff Hlen Hcs. rewrite search_as_narrowing by assumption.
  unfold spec_search, search_by_narrowing.
  rewrite spec_steps_narrow_all; [reflexivity|].
  intros ch Hin. apply Hcs. unfold reading_order in Hin.
  destruct (colex x); [assumption|]. now apply in_rev.
Qed.

End SpecSearchProperties.

Lemma search_refines_spec_algorithm_instance :
  search example_colex (str "CGT") = Ret 6.
Proof.
  rewrite (search_refines_spec_algorithm example_colex (str "CGT")).
  - reflexivity.
  - reflexivity.
  - vm_compute. split; discriminate.
  - simpl. lia.
  - vm_compute. discriminate.
  - intros ch Hin. vm_compute in Hin.
    destruct Hin as [<- | [<- | [<- | []]]]; reflexivity.
Defined.

(** ** [streaming_search] stays inside the index *)

Section StreamingSafety.

Context {R : Type} {SR : SubsetRank R}.
Variables (x : SBWT R) (input : char_ptr) (len : Z).

Hypothesis k_nonneg : 0 <= k x.
Hypothesis len_k : k x <= len.
Hypothesis len_max : len < Int64.max_signed.
Hypothesis off_nonneg : 0 <= off input.
Hypothesis buf_len : off input + len <= size (buf input).
Hypothesis C_length : length (C x) = 4%nat.
Hypothesis first_marked : nth_error (suffix_group_starts x) 0 = Some true.
Hypothesis searches_safe :
  forall p, 0 <= p <= len - k x ->
  search x (ptr_add input p) = Exit 1
  \/ exists v, search x (ptr_add input p) = Ret v /\ in_columns x v = true.
Hypothesis steps_in_range :
  forall column c ci,
    0 <= column < size (suffix_group_starts x) -> char_idx c = Some ci ->
    in_columns x (one_step x (nth ci (C x) 0) column c) = true.

Lemma window_answer_safe p prev :
  0 <= p <= len - k x -> in_columns x prev = true ->
  (prev <> -1 -> p <> first_pos x len) ->
  window_answer x input p prev = Exit 1
  \/ exists v, window_answer x input p prev = Ret v /\ in_columns x v = true.
Proof.
  intros Hp Hprev Hfirst. unfold window_answer.
  destruct (Z.eqb_spec prev (-1)) as [_|Hne]; [now apply searches_safe|].
  right.
  apply in_columns_cases in Hprev. destruct Hprev as [|Hprev]; [contradiction|].
  destruct (sg_walk_total _ prev first_marked Hprev) as (column & -> & Hcol).
  cbn [bind].
  assert (Hpos : 0 <= forward_pos x p < len).
  { specialize (Hfirst Hne). unfold forward_pos, first_pos in *.
    destruct (colex x); lia. }
  destruct (nth_error (buf input) (Z.to_nat (off input + forward_pos x p)))
    as [c0|] eqn:Hc0; [|apply nth_error_None in Hc0; unfold size in *; lia].
  unfold deref. rewrite (at_Ret _ _ c0) by (auto; lia). cbn [bind].
  destruct (char_idx (toupper c0)) as [ci|] eqn:Hci.
  - rewrite at_C by eauto using char_idx_lt. cbn [bind].
    eexists. split; [reflexivity|]. apply steps_in_range; [lia|assumption].
  - exists (-1). split; reflexivity.
Qed.

Lemma streaming_loop_safe n j ans :
  (1 <= j)%nat -> Z.of_nat (j + n) = len - k x + 1 ->
  Forall (fun v => in_columns x v = true) ans -> in_columns x (back ans) = true ->
  let fks := if colex x then input else ptr_add input (len - k x) in
  streaming_loop x input len fks n (Z.of_nat j) ans = Exit 1
  \/ exists ans',
       streaming_loop x input len fks n (Z.of_nat j) ans = Ret ans'
       /\ Forall (fun v => in_columns x v = true) ans'.
Proof.
  cbv zeta. revert j ans. induction n as [|n IH]; intros j ans Hj Hjn Hall Hin.
  - right. now exists ans.
  - cbn [streaming_loop].
    rewrite (streaming_body_window x input len) by (assumption || lia).
    destruct (window_answer_safe
                (if colex x then Z.of_nat j else len - k x - Z.of_nat j) (back ans))
      as [He|(v & Hv & Hvin)].
    { destruct (colex x); lia. }
    { exact Hin. }
    { intros _. unfold first_pos. destruct (colex x); lia. }
    + left. cbv beta. now rewrite He.
    + cbv beta. rewrite Hv. cbn [bind].
      replace (Z.of_nat j [+] 1) with (Z.of_nat (S j))
        by (unfold Int64.max_signed in len_max; int64_exact; lia).
      apply IH; try lia.
      * unfold push_back. apply Forall_app. split; [assumption|now constructor].
      * unfold back, push_back. now rewrite last_last.
Qed.

Lemma streaming_search_safe :
  has_streaming_query_support x = true ->
  streaming_search x input len = Exit 1
  \/ exists ans,
       streaming_search x input len = Ret ans
       /\ Forall (fun v => in_columns x v = true) ans.
Proof.
  intros Hsup. rewrite streaming_search_unfold by assumption.
  assert (Hs : search x (if colex x then input else ptr_add input (len - k x))
               = search x (ptr_add input (first_pos x len))).
  { unfold first_pos. destruct (colex x); [now rewrite ptr_add_0|reflexivity]. }
  rewrite Hs.
  destruct (searches_safe (first_pos x len)) as [He|(v0 & Hv0 & Hin0)].
  { unfold first_pos. destruct (colex x); lia. }
  - left. now rewrite He.
  - rewrite Hv0. cbn [bind].
    destruct (streaming_loop_safe (Z.to_nat (len - k x)) 1 (push_back [] v0))
      as [He|(ans & Hloop & Hall)]; try lia.
    + now repeat constructor.
    + exact Hin0.
    + left. now rewrite He.
    + right. rewrite Hloop. cbn [bind]. eexists. split; [reflexivity|].
      destruct (colex x); [assumption|]. now apply Forall_rev.
Qed.

End StreamingSafety.

(** ** Queries on a structure that counts the four bit vectors *)

Lemma filter_none {A : Type} (l : list A) : filter (fun _ => false) l = [].
Proof. induction l; simpl; auto. Qed.

Lemma total_rank_firstn_le (n : nat) (v : bit_vector) :
  total_rank (firstn n v) <= total_rank v.
Proof.
  unfold total_rank, size. apply inj_le.
  revert n. induction v as [|b v IH]; intros [|n]; simpl; try lia.
  specialize (IH n). destruct b; simpl; lia.
Qed.

Lemma split_rank_not_letter (r : SubsetSplitRank) (i : Z) (c : ascii) :
  char_idx c = None -> split_rank r i c = 0.
Proof.
  unfold char_idx, split_rank, in_subset. intros H.
  destruct (Ascii.eqb c "A"); [discriminate|].
  destruct (Ascii.eqb c "C"); [discriminate|].
  destruct (Ascii.eqb c "G"); [discriminate|].
  destruct (Ascii.eqb c "T"); [discriminate|].
  now rewrite filter_none.
Qed.

Lemma split_rank_bounds (r : SubsetSplitRank) (i : Z) (c : ascii) (ci : nat) :
  char_idx (toupper c) = Some ci ->
  0 <= split_rank r i c
       <= total_rank (nth ci [A_bits r; C_bits r; G_bits r; T_bits r] []).
Proof.
  intros Hci.
  assert (H0 : 0 <= total_rank (nth ci [A_bits r; C_bits r; G_bits r; T_bits r] []))
    by apply total_rank_bounds.
  destruct (char_idx c) as [ci'|] eqn:Hc.
  - destruct (split_rank_firstn r i) as (Ra & Rc & Rg & Rt).
    apply char_idx_Some in Hc.
    destruct Hc as [[-> ->] | [[-> ->] | [[-> ->] | [-> ->]]]];
      cbv in Hci; injection Hci as <-; cbn [nth];
      rewrite ?Ra, ?Rc, ?Rg, ?Rt;
      (split; [apply total_rank_bounds | apply total_rank_firstn_le]).
  - rewrite split_rank_not_letter by assumption. lia.
Qed.

(** X6. With a structure that counts the four bit vectors, a character
    other than an upper-case A, C, G or T among the first [k] makes [search]
    return -1: a lower-case letter passes the test of the character, but its
    rank is 0 and the range is empty after its step. *)
Theorem search_non_upper_case (x : SBWT SubsetSplitRank) (kmer : char_ptr)
    (i : Z) (c : ascii) :
  length (C x) = 4%nat ->
  (forall z, In z (C x) -> Int64.min_signed < z <= Int64.max_signed) ->
  Int64.in_range (k x) ->
  0 <= off kmer -> off kmer + k x <= size (buf kmer) ->
  0 <= i < k x -> deref kmer i = Ret c -> char_idx c = None ->
  search x kmer = Ret (-1).
Proof.
  intros HC HCr Hk Hoff Hlen Hi Hc Hnot.
  rewrite search_as_narrowing by assumption. unfold search_by_narrowing.
  rewrite (narrow_all_None x _ _ c); [reflexivity| |].
  - now apply (deref_in_reading_order x kmer i).
  - intros range'. unfold narrow.
    destruct (char_idx (toupper c)) as [ci|] eqn:Hci; [|reflexivity].
    cbn [rank SplitRank]. rewrite !split_rank_not_letter by assumption.
    assert (Hin : In (nth ci (C x) 0) (C x))
      by (apply nth_In; apply char_idx_lt in Hci; lia).
    apply HCr in Hin. unfold Int64.min_signed, Int64.max_signed in Hin.
    int64_exact.
    destruct (Z.gtb_spec (nth ci (C x) 0 + 0) (nth ci (C x) 0 + 0 - 1)); [reflexivity|lia].
Qed.

Section ConstructedIndex.

Variables (a c g t ss : bit_vector) (kk nk : Z) (cx : bool).

Hypothesis c_length : length c = length a.
Hypothesis g_length : length g = length a.
Hypothesis t_length : length t = length a.
Hypothesis small : 4 * size a + 2 <= Int64.max_signed.

Let x : SBWT SubsetSplitRank := SBWT_new a c g t ss kk nk cx.

(** The number of 1-bits of the four vectors. *)
Let ones : Z := total_rank a + total_rank c + total_rank g + total_rank t.

Lemma constructed_C :
  C x = [1; 1 + total_rank a; 1 + total_rank a + total_rank c;
         1 + total_rank a + total_rank c + total_rank g].
Proof.
  unfold x, SBWT_new. cbn [C rank SplitRank sr_build].
  pose proof (total_rank_bounds a) as Ba. pose proof (total_rank_bounds c) as Bc.
  pose proof (total_rank_bounds g) as Bg.
  assert (Hs : size c = size a /\ size g = size a) by (unfold size; lia).
  assert (Hn : Int64.wrap (size a) = size a)
    by (apply int64_wrap_small; unfold size in *; int64_range).
  rewrite Hn.
  destruct (split_rank_firstn
              {| A_bits := a; C_bits := c; G_bits := g; T_bits := t |} (size a))
    as (Ra & Rc & Rg & _).
  cbn [A_bits C_bits G_bits T_bits] in *.
  unfold size in Ra, Rc, Rg. rewrite Nat2Z.id in *.
  rewrite <- c_length in Rc at 2. rewrite <- g_length in Rg at 2.
  rewrite firstn_all in *. fold (size a) in *.
  rewrite Ra, Rc, Rg.
  unfold Int64.max_signed in small.
  int64_exact. reflexivity.
Qed.

(** One step of either query lands between column 1 and the number of
    1-bits, whatever column it starts from. *)
Lemma constructed_step (column : Z) (ch : ascii) (ci : nat) :
  char_idx (toupper ch) = Some ci ->
  1 <= nth ci (C x) 0 [+] rank (subset_rank x) column ch <= ones + 1
  /\ nth ci (C x) 0 [+] rank (subset_rank x) column ch [-] 1
     = nth ci (C x) 0 [+] rank (subset_rank x) column ch - 1.
Proof.
  intros Hci. rewrite constructed_C.
  pose proof (split_rank_bounds (subset_rank x) column ch ci Hci) as Hr.
  cbn [rank SplitRank].
  set (rho := split_rank (subset_rank x) column ch) in *.
  change (A_bits (subset_rank x)) with a in Hr.
  change (C_bits (subset_rank x)) with c in Hr.
  change (G_bits (subset_rank x)) with g in Hr.
  change (T_bits (subset_rank x)) with t in Hr.
  pose proof (total_rank_bounds a) as Ba. pose proof (total_rank_bounds c) as Bc.
  pose proof (total_rank_bounds g) as Bg. pose proof (total_rank_bounds t) as Bt.
  assert (Hs : size c = size a /\ size g = size a /\ size t = size a)
    by (unfold size; lia).
  unfold Int64.max_signed in small. unfold ones.
  apply char_idx_lt in Hci.
  destruct ci as [|[|[|[|ci]]]]; [| | | |lia]; cbn [nth] in *;
    int64_exact; lia.
Qed.

Lemma constructed_search_loop kmer n i l0 r0 l r :
  search_loop x kmer n i l0 r0 = Ret (Completed l r) ->
  (n = 0%nat /\ l = l0 /\ r = r0) \/ 1 <= l <= r /\ r <= ones.
Proof.
  revert i l0 r0. induction n as [|n IH]; intros i l0 r0; cbn [search_loop].
  - intros [= <- <-]. now left.
  - intros H. right.
    apply bind_Ret_inv in H. destruct H as (ch & _ & H).
    destruct (char_idx (toupper ch)) as [ci|] eqn:Hci; [|discriminate].
    apply bind_Ret_inv in H. destruct H as (Cc & HCc & H).
    assert (Cc = nth ci (C x) 0) as ->.
    { rewrite at_C in HCc by (rewrite ?constructed_C; eauto using char_idx_lt).
      congruence. }
    destruct (constructed_step l0 ch ci Hci) as [Hl _].
    destruct (constructed_step (r0 [+] 1) ch ci Hci) as [Hr Hr1].
    rewrite Hr1 in H.
    destruct (Z.gtb_spec (nth ci (C x) 0 [+] rank (subset_rank x) l0 ch)
                (nth ci (C x) 0 [+] rank (subset_rank x) (r0 [+] 1) ch - 1));
      [discriminate|].
    apply IH in H. destruct H as [(_ & -> & ->)|H]; lia.
Qed.

Lemma constructed_search_value kmer j :
  1 <= kk -> search x kmer = Ret j -> j = -1 \/ 1 <= j <= ones.
Proof.
  intros Hk H. unfold search, search_walk in H.
  apply bind_Ret_inv in H. destruct H as ([v|l r] & Hw & H).
  - apply search_loop_Returned in Hw. injection H as <-. now left.
  - destruct (Z.eqb_spec l r) as [->|]; [|discriminate]. injection H as <-.
    apply constructed_search_loop in Hw. right.
    destruct Hw as [(Hn & _)|Hw]; [|lia].
    change (k x) with kk in Hn. lia.
Qed.

(** X7. On an index constructed from four bit vectors of one length, with
    [k >= 1], a value that [search] returns is -1 or a column between 1 and
    the number of 1-bits of the four vectors: never the root, and a column
    of the index when there are fewer 1-bits than columns. *)
Theorem search_result_range kmer j :
  1 <= kk -> search x kmer = Ret j ->
  j = -1
  \/ (1 <= j <= ones /\ (ones < size a -> 1 <= j < number_of_subsets x)).
Proof.
  intros Hk H. destruct (constructed_search_value kmer j Hk H) as [->|Hj];
    [now left|right].
  split; [exact Hj|]. intros Hones.
  unfold number_of_subsets, x, SBWT_new. cbn [n_nodes].
  rewrite int64_wrap_small by (unfold size in *; int64_range). lia.
Qed.

Hypothesis fewer_ones : ones < size ss.
Hypothesis first_mark : nth_error ss 0 = Some true.
Hypothesis k_positive : 1 <= kk.

(** X8. On an index constructed from four bit vectors of one length, with
    fewer 1-bits than suffix-group marks and the first column marked,
    [streaming_search] on a string never reads outside the string, the C
    array or the marks: it returns entries that are -1 or columns of the
    index, or the process exits with status 1 in a search from scratch. *)
Theorem streaming_search_string_safe (s : list ascii) :
  size s < Int64.max_signed ->
  streaming_search_string x s = Exit 1
  \/ exists ans,
       streaming_search_string x s = Ret ans
       /\ Forall (fun v => v = -1 \/ 0 <= v < size ss) ans.
Proof.
  intros Hs. unfold streaming_search_string.
  assert (Hw : Int64.wrap (size s) = size s)
    by (apply int64_wrap_small; unfold size in *; int64_range).
  rewrite Hw.
  assert (Hsup : has_streaming_query_support x = true).
  { unfold has_streaming_query_support. change (suffix_group_starts x) with ss.
    pose proof (total_rank_bounds a). pose proof (total_rank_bounds c).
    pose proof (total_rank_bounds g). pose proof (total_rank_bounds t).
    unfold ones in fewer_ones. destruct (Z.gtb_spec (size ss) 0); [reflexivity|lia]. }
  destruct (Z.lt_ge_cases (size s) kk) as [Hlt|Hge].
  - right. exists []. split; [|constructor]. unfold streaming_search.
    destruct (size (suffix_group_starts x) =? 0) eqn:E;
      [apply has_streaming_query_support_false in E; congruence|].
    change (k x) with kk. destruct (Z.ltb_spec (size s) kk); [reflexivity|lia].
  - assert (HC : length (C x) = 4%nat) by now rewrite constructed_C.
    destruct (streaming_search_safe x (c_str s) (size s)) as [He|(ans & Hans & Hall)];
      try assumption; change (k x) with kk; cbn [c_str off buf]; try lia.
    + unfold size. rewrite length_app. simpl. lia.
    + intros p Hp.
      rewrite (search_as_narrowing x (ptr_add (c_str s) p));
        cbn [ptr_add c_str off buf]; change (k x) with kk; auto; try lia;
        [|unfold Int64.in_range, Int64.min_signed, Int64.max_signed in *; lia
         |unfold size in *; rewrite length_app; simpl; lia].
      destruct (search_by_narrowing x _) as [[l r]|] eqn:Hn;
        [|right; exists (-1); split; reflexivity].
      destruct (Z.eqb_spec l r) as [->|]; [|now left].
      right. exists r. split; [reflexivity|].
      assert (Hr : r = -1 \/ 1 <= r <= ones).
      { apply (constructed_search_value (ptr_add (c_str s) p)); [assumption|].
        rewrite (search_as_narrowing x (ptr_add (c_str s) p));
          cbn [ptr_add c_str off buf]; change (k x) with kk; auto; try lia;
          [|unfold Int64.in_range, Int64.min_signed, Int64.max_signed in *; lia
           |unfold size in *; rewrite length_app; simpl; lia].
        rewrite Hn, Z.eqb_refl. reflexivity. }
      unfold in_columns. change (suffix_group_starts x) with ss. lia.
    + intros column ch ci Hcol Hci. unfold one_step, in_columns.
      change (suffix_group_starts x) with ss in *.
      assert (Hup : char_idx (toupper ch) = Some ci).
      { apply char_idx_Some in Hci.
        destruct Hci as [[-> ->] | [[-> ->] | [[-> ->] | [-> ->]]]]; reflexivity. }
      destruct (constructed_step column ch ci Hup) as [Hl _].
      destruct (constructed_step (column [+] 1) ch ci Hup) as [Hr Hr1].
      rewrite Hr1.
      destruct (Z.eqb_spec (nth ci (C x) 0 [+] rank (subset_rank x) column ch)
                  (nth ci (C x) 0 [+] rank (subset_rank x) (column [+] 1) ch - 1));
        lia.
    + now left.
    + right. exists ans. split; [assumption|].
      eapply Forall_impl; [|exact Hall].
      intros v Hv. apply in_columns_cases in Hv. exact Hv.
Qed.

End ConstructedIndex.

(** ** Byte counts and streams of several indexes *)

Lemma length_write_int64 (v : Z) : length (write_int64 v) = 8%nat.
Proof. apply length_le_bytes. Qed.

Lemma length_flat_map_write_int64 (v : list Z) :
  length (flat_map write_int64 v) = (8 * length v)%nat.
Proof.
  induction v as [|z v IH]; [reflexivity|].
  cbn [flat_map]. rewrite length_app, length_write_int64, IH. simpl. lia.
Qed.

Lemma size_serialize_std_vector (v : list Z) :
  size (fst (serialize_std_vector v)) = 8 + 8 * size v.
Proof.
  unfold serialize_std_vector, size. cbn [fst].
  rewrite length_app, length_write_int64, length_flat_map_write_int64. lia.
Qed.

(** X2. [serialize_std_vector] writes the byte count and the entries of the
    vector, 8 + 8n bytes for n entries, and returns that number;
    [load_std_vector] reads the vector back from these bytes and leaves the
    rest of the stream. *)
Theorem std_vector_round_trip (v : list Z) (rest : list byte) :
  Forall Int64.in_range v -> 8 + 8 * size v <= Int64.max_signed ->
  size (fst (serialize_std_vector v)) = 8 + 8 * size v
  /\ snd (serialize_std_vector v) = size (fst (serialize_std_vector v))
  /\ load_std_vector (fst (serialize_std_vector v) ++ rest) = Some (v, rest).
Proof.
  intros Hv Hsize. split; [apply size_serialize_std_vector|]. split.
  - rewrite size_serialize_std_vector. unfold serialize_std_vector. cbn [snd].
    rewrite int64_wrap_small by (unfold size in *; int64_range). reflexivity.
  - apply load_std_vector_serialize; [assumption|lia].
Qed.

Section ByteCount.

Context {R : Type} {SR : SubsetRank R}.

Lemma snd_serialize (x : SBWT R) :
  snd (serialize x)
  = 0 [+] size (sr_serialize (subset_rank x))
      [+] size (bv_serialize (suffix_group_starts x))
      [+] snd (serialize_std_vector (C x)) [+] 8 [+] 8 [+] 1.
Proof. reflexivity. Qed.

(** X3. [serialize] returns the number of bytes it has written, as long as
    that number is a value of [int64_t]. *)
Theorem serialize_byte_count (x : SBWT R) :
  size (fst (serialize x)) <= Int64.max_signed ->
  snd (serialize x) = size (fst (serialize x)).
Proof.
  rewrite snd_serialize, fst_serialize. unfold size.
  rewrite !length_app, length_le_bytes, !length_write_int64.
  pose proof (size_serialize_std_vector (C x)) as HC. unfold size in HC.
  intros Hsize.
  assert (Hw : snd (serialize_std_vector (C x))
               = 8 + 8 * Z.of_nat (length (C x))).
  { unfold serialize_std_vector, size. cbn [snd].
    rewrite int64_wrap_small by int64_range. reflexivity. }
  rewrite Hw. unfold Int64.max_signed in Hsize.
  int64_exact. lia.
Qed.

(** X4. Two indexes written one after the other into one stream are loaded
    one after the other: the first [load] stops at the first byte of the
    second index. *)
Theorem load_two_indexes (x1 x2 y1 y2 : SBWT R) :
  (forall rest, sr_load (sr_serialize (subset_rank x1) ++ rest)
                = Some (subset_rank x1, rest)) ->
  (forall rest, sr_load (sr_serialize (subset_rank x2) ++ rest)
                = Some (subset_rank x2, rest)) ->
  size (suffix_group_starts x1) < 2 ^ 64 ->
  size (suffix_group_starts x2) < 2 ^ 64 ->
  Forall Int64.in_range (C x1) -> Forall Int64.in_range (C x2) ->
  8 * size (C x1) <= Int64.max_signed -> 8 * size (C x2) <= Int64.max_signed ->
  Int64.in_range (n_nodes x1) -> Int64.in_range (n_nodes x2) ->
  Int64.in_range (k x1) -> Int64.in_range (k x2) ->
  exists x1' x2' stream,
    load y1 (fst (serialize x1) ++ fst (serialize x2)) = Some (x1', stream)
    /\ load y2 stream = Some (x2', [])
    /\ x1' = with_n_kmers x1 (n_kmers y1)
    /\ x2' = with_n_kmers x2 (n_kmers y2).
Proof.
  intros Hsr1 Hsr2 Hsg1 Hsg2 HC1 HC2 Hs1 Hs2 Hn1 Hn2 Hk1 Hk2.
  exists (with_n_kmers x1 (n_kmers y1)), (with_n_kmers x2 (n_kmers y2)),
    (fst (serialize x2)).
  split; [now apply load_serialize|]. split; [|split; reflexivity].
  rewrite <- (app_nil_r (fst (serialize x2))). now apply load_serialize.
Qed.

End ByteCount.

(** ** Instances of the further properties on the index of the six 3-mers *)

Lemma search_invalid_character_witness :
  search example_colex (str "AAN") = Ret (-1).
Proof.
  apply (search_invalid_character example_colex (str "AAN") 2 "N").
  - reflexivity.
  - vm_compute. split; discriminate.
  - simpl. lia.
  - vm_compute. discriminate.
  - vm_compute. split; [discriminate|reflexivity].
  - reflexivity.
  - reflexivity.
Defined.

Lemma search_non_upper_case_witness :
  search example_colex (str "AaA") = Ret (-1).
Proof.
  apply (search_non_upper_case example_colex (str "AaA") 1 "a").
  - reflexivity.
  - intros z Hz. vm_compute in Hz.
    destruct Hz as [<- | [<- | [<- | [<- | []]]]];
      vm_compute; split; (reflexivity || discriminate).
  - vm_compute. split; discriminate.
  - simpl. lia.
  - vm_compute. discriminate.
  - vm_compute. split; [discriminate|reflexivity].
  - reflexivity.
  - reflexivity.
Defined.

Lemma search_result_range_witness :
  6 = -1 \/ (1 <= 6 <= 3 + 1 + 1 + 1 /\ (3 + 1 + 1 + 1 < 7 -> 1 <= 6 < 7)).
Proof.
  apply (search_result_range
           (bits "0101001") (bits "0100000") (bits "0000100") (bits "0000010")
           (bits "1101111") 3 6 true
           ltac:(reflexivity) ltac:(reflexivity) ltac:(reflexivity)
           ltac:(vm_compute; discriminate) (str "CGT") 6).
  - lia.
  - reflexivity.
Defined.

Lemma streaming_search_string_safe_witness :
  streaming_search_string example_colex (list_ascii_of_string "AACGTAA") = Exit 1
  \/ exists ans,
       streaming_search_string example_colex (list_ascii_of_string "AACGTAA")
       = Ret ans
       /\ Forall (fun v => v = -1 \/ 0 <= v < 7) ans.
Proof.
  apply (streaming_search_string_safe
           (bits "0101001") (bits "0100000") (bits "0000100") (bits "0000010")
           (bits "1101111") 3 6 true).
  - reflexivity.
  - reflexivity.
  - reflexivity.
  - vm_compute. discriminate.
  - vm_compute. reflexivity.
  - reflexivity.
  - lia.
  - vm_compute. reflexivity.
Defined.

Lemma search_without_characters_witness :
  search (SBWT_default : SBWT SubsetSplitRank) (str "ACG") = Exit 1.
Proof.
  rewrite search_without_characters.
  - reflexivity.
  - simpl. lia.
Defined.

Lemma search_string_narrowing_witness :
  k example_colex = 3
  /\ Ret 6 = match search_by_narrowing example_colex (list_ascii_of_string "CGT") with
             | None => Ret (-1)
             | Some (l, r) => if l =? r then Ret l else Exit 1
             end.
Proof.
  apply (search_string_narrowing example_colex (list_ascii_of_string "CGT") (Ret 6)).
  - reflexivity.
  - vm_compute. split; discriminate.
  - vm_compute. discriminate.
  - reflexivity.
Defined.

Lemma streaming_search_one_window_witness :
  streaming_search example_colex (str "CGT") 3 = Ret [6].
Proof.
  change 3 with (k example_colex) at 1.
  rewrite streaming_search_one_window.
  - reflexivity.
  - reflexivity.
Defined.

Lemma std_vector_round_trip_witness :
  snd (serialize_std_vector [1; 4; 5; 6]) = size (fst (serialize_std_vector [1; 4; 5; 6]))
  /\ load_std_vector (fst (serialize_std_vector [1; 4; 5; 6]) ++ [x2a%byte])
     = Some ([1; 4; 5; 6], [x2a%byte]).
Proof.
  destruct (std_vector_round_trip [1; 4; 5; 6] [x2a%byte]) as (_ & Hn & Hl).
  - repeat constructor; vm_compute; discriminate.
  - vm_compute. discriminate.
  - split; assumption.
Defined.

Lemma serialize_byte_count_witness :
  snd (serialize example_colex) = size (fst (serialize example_colex)).
Proof.
  apply serialize_byte_count. vm_compute. discriminate.
Defined.

Lemma load_two_indexes_witness :
  exists x1' x2' stream,
    load SBWT_default (fst (serialize example_colex) ++ fst (serialize example_lex))
    = Some (x1', stream)
    /\ load example_colex stream = Some (x2', [])
    /\ x1' = with_n_kmers example_colex 0
    /\ x2' = with_n_kmers example_lex 6.
Proof.
  apply (load_two_indexes example_colex example_lex SBWT_default example_colex).
  - intros rest. apply split_load_serialize; vm_compute; reflexivity.
  - intros rest. apply split_load_serialize; vm_compute; reflexivity.
  - vm_compute. reflexivity.
  - vm_compute. reflexivity.
  - repeat constructor; vm_compute; discriminate.
  - repeat constructor; vm_compute; discriminate.
  - vm_compute. discriminate.
  - vm_compute. discriminate.
  - vm_compute. split; discriminate.
  - vm_compute. split; discriminate.
  - vm_compute. split; discriminate.
  - vm_compute. split; discriminate.
Defined.

(** ** [search] on a C string that is shorter than [k] *)

Section ShortStrings.

Context {R : Type} {SR : SubsetRank R}.

Lemma deref_c_str (s : list ascii) (i : nat) :
  (i <= length s)%nat ->
  deref (c_str s) (Z.of_nat i) = Ret (nth i (s ++ [zero]) zero).
Proof.
  intros Hi. unfold deref. cbn [c_str off buf]. apply at_Ret; [lia|].
  rewrite Z.add_0_l, Nat2Z.id. apply nth_error_nth'.
  rewrite length_app. simpl. lia.
Qed.

(** In a colex index the loop meets the terminating NUL before it could
    read past it. *)
Lemma search_loop_short (x : SBWT R) (s : list ascii) n i l r :
  colex x = true -> length (C x) = 4%nat -> size s < Int64.max_signed ->
  (i <= length s)%nat -> (length s < i + n)%nat ->
  search_loop x (c_str s) n (Z.of_nat i) l r = Ret (Returned (-1)).
Proof.
  intros Hcx HC Hs. revert i l r.
  induction n as [|n IH]; intros i l r Hi Hn; [lia|].
  cbn [search_loop]. rewrite Hcx, deref_c_str by assumption. cbn [bind].
  destruct (Nat.eq_dec i (length s)) as [->|Hne].
  - now rewrite nth_middle.
  - rewrite app_nth1 by lia.
    destruct (char_idx (toupper (nth i s zero))) as [ci|] eqn:Hci; [|reflexivity].
    rewrite at_C by eauto using char_idx_lt. cbn [bind].
    destruct (_ >? _); [reflexivity|].
    replace (Z.of_nat i [+] 1) with (Z.of_nat (S i))
      by (unfold size, Int64.max_signed in Hs; int64_exact; lia).
    apply IH; lia.
Qed.

(** X13. In a colex index, [search] on the C string of a string with fewer
    than [k] characters returns -1: it stops at the terminating NUL at the
    latest, and reads nothing behind it. *)
Theorem search_short_string_colex (x : SBWT R) (s : list ascii) :
  colex x = true -> length (C x) = 4%nat -> Int64.in_range (k x) ->
  size s < k x ->
  search x (c_str s) = Ret (-1).
Proof.
  intros Hcx HC Hk Hs. unfold search, search_walk.
  change 0 with (Z.of_nat 0) at 1.
  rewrite search_loop_short; try assumption; try reflexivity.
  - unfold Int64.in_range in Hk. lia.
  - lia.
  - unfold size in Hs. lia.
Qed.

(** X14. In a lex index, [search] reads [kmer[k-1]] first: on the C string
    of a string with fewer than [k - 1] characters this is a read behind the
    terminating NUL, outside the array. *)
Theorem search_short_string_lex (x : SBWT R) (s : list ascii) :
  colex x = false -> Int64.in_range (k x) -> size s + 1 < k x ->
  search x (c_str s) = Undefined.
Proof.
  intros Hcx Hk Hs. unfold search, search_walk.
  destruct (Z.to_nat (k x)) as [|n] eqn:E; [unfold size in Hs; lia|].
  cbn [search_loop]. rewrite Hcx.
  replace (k x [-] 1 [-] 0) with (k x - 1)
    by (unfold size in Hs; int64_exact; lia).
  unfold deref, at_. cbn [c_str off buf].
  destruct (Z.ltb_spec (0 + (k x - 1)) 0); [reflexivity|].
  destruct (nth_error (s ++ [zero]) (Z.to_nat (0 + (k x - 1)))) eqn:Hn;
    [|reflexivity].
  assert (Hlt : (Z.to_nat (0 + (k x - 1)) < length (s ++ [zero]))%nat)
    by (apply nth_error_Some; congruence).
  rewrite length_app in Hlt. unfold size in Hs. simpl in Hlt. lia.
Qed.

End ShortStrings.

Lemma search_short_string_colex_witness :
  search example_colex (str "AA") = Ret (-1).
Proof.
  apply search_short_string_colex.
  - reflexivity.
  - reflexivity.
  - vm_compute. split; discriminate.
  - vm_compute. reflexivity.
Defined.

Lemma search_short_string_lex_witness :
  search example_lex (str "A") = Undefined.
Proof.
  apply search_short_string_lex.
  - reflexivity.
  - vm_compute. split; discriminate.
  - vm_compute. reflexivity.
Defined.

(** ** Invalid characters in [streaming_search] *)

Section StreamingInvalid.

Context {R : Type} {SR : SubsetRank R}.
Variables (x : SBWT R) (input : char_ptr) (len : Z) (ans : list Z).

Hypothesis support : has_streaming_query_support x = true.
Hypothesis k_nonneg : 0 <= k x.
Hypothesis len_k : k x <= len.
Hypothesis len_max : len < Int64.max_signed.
Hypothesis off_nonneg : 0 <= off input.
Hypothesis buf_len : off input + len <= size (buf input).
Hypothesis C_length : length (C x) = 4%nat.
Hypothesis returned : streaming_search x input len = Ret ans.

Variables (q : Z) (c : ascii).
Hypothesis read_q : deref input q = Ret c.
Hypothesis invalid : char_idx (toupper c) = None.

(** A search from scratch on a window that holds the position [q]. *)
Lemma search_window_invalid p :
  0 <= p <= len - k x -> p <= q < p + k x ->
  search x (ptr_add input p) = Ret (-1).
Proof.
  intros Hp Hq.
  rewrite search_as_narrowing; cbn [ptr_add off buf]; try assumption; try lia.
  - unfold search_by_narrowing.
    rewrite (narrow_all_None x _ _ c); [reflexivity| |].
    + apply (deref_in_reading_order x (ptr_add input p) (q - p));
        cbn [ptr_add off buf]; try lia.
      unfold deref in *. cbn [ptr_add off buf].
      now replace (off input + p + (q - p)) with (off input + q) by lia.
    + intros range'. unfold narrow. now rewrite invalid.
  - unfold Int64.in_range, Int64.min_signed, Int64.max_signed in *. lia.
Qed.

(** By the number [m] of windows processed before the window at [p]. *)
Lemma entry_invalid (m : nat) :
  forall p, Z.of_nat m = (if colex x then p else len - k x - p) ->
  0 <= p <= len - k x -> p <= q < p + k x ->
  nth (Z.to_nat p) ans 0 = -1.
Proof.
  destruct (streaming_search_returned x input len k_nonneg len_k len_max
              ans support returned) as [_ Hpos].
  induction m as [|m IH]; intros p Hm Hp Hq; specialize (Hpos p Hp).
  - assert (Hf : p = first_pos x len)
      by (unfold first_pos; destruct (colex x); lia).
    rewrite <- Hf, Z.eqb_refl in Hpos. unfold window_answer in Hpos.
    change (-1 =? -1) with true in Hpos. cbv iota in Hpos.
    rewrite search_window_invalid in Hpos by assumption. congruence.
  - assert (Hf : p <> first_pos x len)
      by (unfold first_pos; destruct (colex x); lia).
    destruct (Z.eqb_spec p (first_pos x len)) as [|_]; [contradiction|].
    unfold window_answer in Hpos.
    destruct (Z.eqb_spec (nth (Z.to_nat (processed_before x p)) ans 0) (-1))
      as [_|Hprev].
    + rewrite search_window_invalid in Hpos by assumption. congruence.
    + apply bind_Ret_inv in Hpos. destruct Hpos as (column & _ & Hpos).
      apply bind_Ret_inv in Hpos. destruct Hpos as (c0 & Hc0 & Hpos).
      destruct (Z.eq_dec q (forward_pos x p)) as [->|Hfw].
      * rewrite read_q in Hc0. injection Hc0 as <-.
        rewrite invalid in Hpos. congruence.
      * exfalso. apply Hprev. apply IH.
        -- unfold processed_before. destruct (colex x); lia.
        -- unfold processed_before, first_pos in *. destruct (colex x); lia.
        -- unfold processed_before, forward_pos in *. destruct (colex x); lia.
Qed.

End StreamingInvalid.

(** X15. When [streaming_search] returns, the entry of every window that
    holds a character other than A, C, G, T in either case is -1, in a colex
    and in a lex index, whether the window was searched from scratch or
    extended from its neighbour. *)
Theorem streaming_search_invalid_character {R : Type} {SR : SubsetRank R}
    (x : SBWT R) (input : char_ptr) (len : Z) (ans : list Z)
    (p q : Z) (c : ascii) :
  has_streaming_query_support x = true ->
  0 <= k x -> k x <= len -> len < Int64.max_signed ->
  0 <= off input -> off input + len <= size (buf input) ->
  length (C x) = 4%nat ->
  streaming_search x input len = Ret ans ->
  0 <= p <= len - k x -> p <= q < p + k x ->
  deref input q = Ret c -> char_idx (toupper c) = None ->
  nth (Z.to_nat p) ans 0 = -1.
Proof.
  intros Hsup Hk0 Hlk Hmax Hoff Hbuf HC Hret Hp Hq Hc Hinv.
  apply (entry_invalid x input len ans Hsup Hk0 Hlk Hmax Hoff Hbuf HC Hret
           q c Hc Hinv (Z.to_nat (if colex x then p else len - k x - p)));
    try assumption.
  destruct (colex x); lia.
Qed.

Lemma streaming_search_invalid_character_witness :
  nth (Z.to_nat 1) [4; -1; -1; -1; 2] 0 = -1.
Proof.
  apply (streaming_search_invalid_character example_colex (str "AACNTAA") 7
           [4; -1; -1; -1; 2] 1 3 "N").
  - reflexivity.
  - vm_compute. discriminate.
  - vm_compute. discriminate.
  - vm_compute. reflexivity.
  - simpl. lia.
  - vm_compute. discriminate.
  - reflexivity.
  - reflexivity.
  - vm_compute. split; discriminate.
  - vm_compute. split; [discriminate|reflexivity].
  - reflexivity.
  - reflexivity.
Defined.
